(** * RateLimiterRedis: the Redis store adapter of rate-limiter-flexible

    A shallow embedding of [lib/RateLimiterRedis.js] and of the part of
    the Redis command set it drives, followed by the properties of the
    adapter.

    Conventions of the model.
    - JavaScript numbers are mathematical integers plus [NaN]; the rounding
      of doubles above 2^53, fractions and infinities are not represented,
      and neither is the 64-bit range of the store's counters. Properties
      that report a counter are stated for integers of magnitude at most
      2^52 ([in_range]), on which the model's arithmetic is the code's.
    - The client of the model hands every command to the store and calls
      back with what the store replies; a connection that fails is not
      represented, so the [err] of a callback is an error of the store.
    - A promise is represented by the way it settles.
    - Each adapter operation returns the client calls it made, in order,
      the settlement of its promise and the store it leaves behind. *)

From Stdlib Require Import ZArith String Ascii List Lia.
From Stdlib Require Import DecimalString DecimalZ DecimalPos DecimalN.
From stdpp Require Import gmap strings list.

Local Open Scope string_scope.
Local Open Scope Z_scope.

Set Warnings "-register-all".

(** ** JavaScript values *)

Module JS.

Inductive num :=
| Int (z : Z)
| NaN.

Inductive value :=
| VUndef
| VNull
| VBool (b : bool)
| VNum (n : num)
| VStr (s : string)
| VErr (msg : string)          (* an Error object with this message *)
| VArr (l : list value).

Definition num_eqb (a b : num) : bool :=
  match a, b with
  | Int x, Int y => x =? y
  | _, _ => false
  end.

(** [a === b] for two numbers: [NaN] is equal to nothing. *)
Definition strict_eq_num (a : num) (b : Z) : bool := num_eqb a (Int b).

(** [a - b] *)
Definition num_sub (a b : num) : num :=
  match a, b with
  | Int x, Int y => Int (x - y)
  | _, _ => NaN
  end.

(** [Math.max(a, b)] *)
Definition Math_max (a b : num) : num :=
  match a, b with
  | Int x, Int y => Int (Z.max x y)
  | _, _ => NaN
  end.

(** [Math.floor(a / 1000)] on an integer [a]: the quotient rounded towards
    minus infinity, which is [Z.div]. *)
Definition floor_div (a b : Z) : Z := a / b.

(** ToBoolean *)
Definition truthy (v : value) : bool :=
  match v with
  | VUndef | VNull => false
  | VBool b => b
  | VNum (Int z) => negb (z =? 0)
  | VNum NaN => false
  | VStr s => negb (String.eqb s "")
  | VErr _ | VArr _ => true
  end.

Definition isArray (v : value) : bool :=
  match v with VArr _ => true | _ => false end.

Definition Z_to_string (z : Z) : string :=
  NilZero.string_of_int (Z.to_int z).

Definition join_comma (parts : list string) : string :=
  match parts with
  | [] => ""
  | p :: ps => fold_left (fun acc q => acc +:+ "," +:+ q) ps p
  end.

(** ToString. The elements [null] and [undefined] of an array print as the
    empty string. *)
Fixpoint to_string (v : value) : string :=
  match v with
  | VUndef => "undefined"
  | VNull => "null"
  | VBool true => "true"
  | VBool false => "false"
  | VNum (Int z) => Z_to_string z
  | VNum NaN => "NaN"
  | VStr s => s
  | VErr msg => "Error: " +:+ msg
  | VArr l =>
      join_comma
        (List.map (fun e => match e with
                            | VUndef | VNull => ""
                            | _ => to_string e
                            end) l)
  end.

(** *** parseInt *)

Definition is_ws (a : ascii) : bool :=
  match nat_of_ascii a with
  | 9%nat | 10%nat | 11%nat | 12%nat | 13%nat | 32%nat => true
  | _ => false
  end.

Fixpoint skip_ws (s : string) : string :=
  match s with
  | String a r => if is_ws a then skip_ws r else s
  | EmptyString => s
  end.

Definition dec_digit (a : ascii) : option (Decimal.uint -> Decimal.uint) :=
  match a with
  | "0"%char => Some Decimal.D0 | "1"%char => Some Decimal.D1
  | "2"%char => Some Decimal.D2 | "3"%char => Some Decimal.D3
  | "4"%char => Some Decimal.D4 | "5"%char => Some Decimal.D5
  | "6"%char => Some Decimal.D6 | "7"%char => Some Decimal.D7
  | "8"%char => Some Decimal.D8 | "9"%char => Some Decimal.D9
  | _ => None
  end.

Definition hex_digit (a : ascii) : option (Hexadecimal.uint -> Hexadecimal.uint) :=
  match a with
  | "0"%char => Some Hexadecimal.D0 | "1"%char => Some Hexadecimal.D1
  | "2"%char => Some Hexadecimal.D2 | "3"%char => Some Hexadecimal.D3
  | "4"%char => Some Hexadecimal.D4 | "5"%char => Some Hexadecimal.D5
  | "6"%char => Some Hexadecimal.D6 | "7"%char => Some Hexadecimal.D7
  | "8"%char => Some Hexadecimal.D8 | "9"%char => Some Hexadecimal.D9
  | "a"%char | "A"%char => Some Hexadecimal.Da
  | "b"%char | "B"%char => Some Hexadecimal.Db
  | "c"%char | "C"%char => Some Hexadecimal.Dc
  | "d"%char | "D"%char => Some Hexadecimal.Dd
  | "e"%char | "E"%char => Some Hexadecimal.De
  | "f"%char | "F"%char => Some Hexadecimal.Df
  | _ => None
  end.

(** The longest prefix of decimal (hexadecimal) digits. *)
Fixpoint take_dec (s : string) : Decimal.uint :=
  match s with
  | String a r =>
      match dec_digit a with
      | Some d => d (take_dec r)
      | None => Decimal.Nil
      end
  | EmptyString => Decimal.Nil
  end.

Fixpoint take_hex (s : string) : Hexadecimal.uint :=
  match s with
  | String a r =>
      match hex_digit a with
      | Some d => d (take_hex r)
      | None => Hexadecimal.Nil
      end
  | EmptyString => Hexadecimal.Nil
  end.

Definition dec_magnitude (s : string) : option Z :=
  match take_dec s with
  | Decimal.Nil => None
  | u => Some (Z.of_uint u)
  end.

Definition hex_magnitude (s : string) : option Z :=
  match take_hex s with
  | Hexadecimal.Nil => None
  | u => Some (Z.of_hex_uint u)
  end.

(** The digits after the sign: a [0x] prefix selects radix 16. *)
Definition magnitude (s : string) : option Z :=
  match s with
  | String "0"%char (String "x"%char r) => hex_magnitude r
  | String "0"%char (String "X"%char r) => hex_magnitude r
  | _ => dec_magnitude s
  end.

Definition signed (neg : bool) (mag : option Z) : num :=
  match mag with
  | Some m => Int (if neg then - m else m)
  | None => NaN
  end.

(** [parseInt(s)] with no radix: leading white space (here the ASCII white
    space characters) is dropped, then an optional sign is read, then the
    digits; the result is [NaN] when no digit follows. *)
Definition parseInt_string (s : string) : num :=
  match skip_ws s with
  | String "-"%char r => signed true (magnitude r)
  | String "+"%char r => signed false (magnitude r)
  | s1 => signed false (magnitude s1)
  end.

Definition parseInt (v : value) : num := parseInt_string (to_string v).

(** The elements an array destructuring pattern draws from [v]: arrays and
    strings are iterable, anything else raises a TypeError ([None]). *)
Definition iterate (v : value) : option (list value) :=
  match v with
  | VArr l => Some l
  | VStr s => Some (List.map (fun a => VStr (String a "")) (list_ascii_of_string s))
  | _ => None
  end.

(** The element a pattern binds at position [i]; [undefined] past the end. *)
Definition element (i : nat) (l : list value) : value :=
  List.nth i l VUndef.

End JS.

Import JS.

(** ** The store: the Redis commands the adapter issues *)

(** The store is outside the repository. Its model follows the Redis
    command reference for the six commands the adapter and its script
    issue, on counters that hold integers (the adapter writes nothing
    else); the 64-bit range of Redis integers is not represented. Time is
    explicit: nothing ages while a script or a transaction runs, and
    [advance] lets time pass between operations. *)

Module Redis.

(** A counter: its value and the milliseconds it has left to live
    ([None]: no expiry). *)
Record entry := Entry { e_val : Z; e_ttl : option Z }.

Abbreviation db := (gmap string entry).

Inductive command :=
| SET (k : string) (v : Z) (ex : option Z) (nx : bool)
| INCRBY (k : string) (n : Z)
| PTTL (k : string)
| GET (k : string)
| DEL (k : string)
| EXPIRE (k : string) (sec : Z).

Inductive reply :=
| RStatus (s : string)
| RInt (z : Z)
| RBulk (s : string)
| RNil
| RError (msg : string)
| RArray (l : list reply).

(** The effect and the reply of each command. [SET] checks its expiry,
    then the [NX] condition, and replies with the status [OK] ([nil] when
    [NX] keeps the old value); a [SET] without [EX] drops any expiry.
    [INCRBY] creates an absent counter from 0, keeps the expiry and replies
    with the new value. [PTTL] replies with the milliseconds left, [-1]
    without expiry and [-2] for an absent key. [GET] replies with the
    value in decimal, or [nil]. [DEL] and [EXPIRE] reply with the number
    of keys they touched. *)
Definition run_command (c : command) (d : db) : db * reply :=
  match c with
  | SET k v ex nx =>
      if match ex with Some s => s <=? 0 | None => false end
      then (d, RError "ERR invalid expire time in 'set' command")
      else if nx && bool_decide (is_Some (d !! k))
      then (d, RNil)
      else (<[k := Entry v (Z.mul 1000 <$> ex)]> d, RStatus "OK")
  | INCRBY k n =>
      match d !! k with
      | None => (<[k := Entry n None]> d, RInt n)
      | Some e => (<[k := Entry (e_val e + n) (e_ttl e)]> d, RInt (e_val e + n))
      end
  | PTTL k =>
      match d !! k with
      | None => (d, RInt (-2))
      | Some e => (d, RInt (default (-1) (e_ttl e)))
      end
  | GET k =>
      match d !! k with
      | None => (d, RNil)
      | Some e => (d, RBulk (Z_to_string (e_val e)))
      end
  | DEL k =>
      match d !! k with
      | None => (d, RInt 0)
      | Some _ => (delete k d, RInt 1)
      end
  | EXPIRE k sec =>
      match d !! k with
      | None => (d, RInt 0)
      | Some e =>
          if sec <=? 0 then (delete k d, RInt 1)
          else (<[k := Entry (e_val e) (Some (1000 * sec))]> d, RInt 1)
      end
  end.

(** Commands of one transaction run in order, with nothing in between. *)
Fixpoint run_commands (cs : list command) (d : db) : db * list reply :=
  match cs with
  | [] => (d, [])
  | c :: cs' =>
      let '(d1, r) := run_command c d in
      let '(d2, rs) := run_commands cs' d1 in
      (d2, r :: rs)
  end.

(** [dt] milliseconds pass: counters whose time is up disappear. *)
Definition age (dt : Z) (e : entry) : option entry :=
  match e_ttl e with
  | None => Some e
  | Some t => if dt <? t then Some (Entry (e_val e) (Some (t - dt))) else None
  end.

Definition advance (dt : Z) (d : db) : db := omap (age dt) d.

(** What a reader of the store sees of key [k]: the counter (an absent key
    counts from 0) and the time it has left. *)
Definition counter (d : db) (k : string) : Z :=
  match d !! k with
  | Some e => e_val e
  | None => 0
  end.

Definition ttl_of (d : db) (k : string) : option Z := d !! k ≫= e_ttl.

(** *** Server-side scripts *)

(** A script runs against the store and ends with a reply or an error; what
    it wrote before an error stays written. *)
Definition Lua (A : Type) : Type := db -> db * (string + A).

Definition lua_ret {A} (a : A) : Lua A := fun d => (d, inr a).
Definition lua_error {A} (msg : string) : Lua A := fun d => (d, inl msg).
Definition lua_bind {A B} (m : Lua A) (k : A -> Lua B) : Lua B :=
  fun d => match m d with
           | (d1, inl msg) => (d1, inl msg)
           | (d1, inr a) => k a d1
           end.

Notation "'let*' x ':=' m 'in' k" := (lua_bind m (fun x => k))
  (at level 10, x name, m at level 100, k at level 200).

(** [redis.call]: an error reply of the command aborts the script. *)
Definition redis_call (c : command) : Lua reply :=
  fun d => match run_command c d with
           | (d1, RError msg) => (d1, inl msg)
           | (d1, r) => (d1, inr r)
           end.

(** [KEYS[i]] and [ARGV[i]], counted from 1. *)
Definition lua_key (KEYS : list value) (i : nat) : Lua string :=
  match KEYS !! pred i with
  | Some (VStr k) => lua_ret k
  | _ => lua_error "ERR wrong key argument"
  end.

Definition lua_int (ARGV : list value) (i : nat) : Lua Z :=
  match ARGV !! pred i with
  | Some (VNum (Int z)) => lua_ret z
  | _ => lua_error "ERR value is not an integer or out of range"
  end.

Definition reply_int (r : reply) : Lua Z :=
  match r with
  | RInt z => lua_ret z
  | _ => lua_error "ERR not a number"
  end.

End Redis.

Import Redis.

(** ** The increment script of lib/RateLimiterRedis.js *)

Definition incrTtlLuaScript : string :=
  "redis.call('set', KEYS[1], 0, 'EX', ARGV[2], 'NX') " +:+
  "local consumed = redis.call('incrby', KEYS[1], ARGV[1]) " +:+
  "local ttl = redis.call('pttl', KEYS[1]) " +:+
  "if ttl == -1 then " +:+
  "  redis.call('expire', KEYS[1], ARGV[2]) " +:+
  "  ttl = 1000 * ARGV[2] " +:+
  "end " +:+
  "return {consumed, ttl} ".

(** What [incrTtlLuaScript] does when the store runs it. *)
Definition incrTtl (KEYS ARGV : list value) : Lua reply :=
  let* k1 := lua_key KEYS 1 in
  let* sec := lua_int ARGV 2 in
  let* _ := redis_call (SET k1 0 (Some sec) true) in
  let* k2 := lua_key KEYS 1 in
  let* n := lua_int ARGV 1 in
  let* r := redis_call (INCRBY k2 n) in
  let* consumed := reply_int r in
  let* k3 := lua_key KEYS 1 in
  let* r := redis_call (PTTL k3) in
  let* ttl := reply_int r in
  if ttl =? -1 then
    let* k4 := lua_key KEYS 1 in
    let* sec := lua_int ARGV 2 in
    let* _ := redis_call (EXPIRE k4 sec) in
    let* sec := lua_int ARGV 2 in
    lua_ret (RArray [RInt consumed; RInt (1000 * sec)])
  else
    lua_ret (RArray [RInt consumed; RInt ttl]).

(** The store knows the scripts by their text. *)
Definition run_lua (script : string) (KEYS ARGV : list value) : Lua reply :=
  if String.eqb script incrTtlLuaScript then incrTtl KEYS ARGV
  else lua_error "ERR Error compiling script".

(** ** The store client *)

(** The parts of a client object the adapter looks at: the [status] field
    of ioredis ([undefined] when the client has none), the [isReady] probe
    of node-redis ([Some r] when it is a function, returning [r]), whether
    [defineCommand] is a function, the custom commands defined so far
    (name to number of keys and script text), and whether the replies of
    [exec] arrive as bare values or wrapped in [[err, value]] pairs. *)
Record Client := {
  status : value;
  isReady : option value;
  defineCommand_fn : bool;
  commands : gmap string (nat * string);
  wraps : bool;
}.

Fixpoint js_of_reply (r : reply) : value :=
  match r with
  | RStatus s => VStr s
  | RInt z => VNum (Int z)
  | RBulk s => VStr s
  | RNil => VNull
  | RError msg => VErr msg
  | RArray l => VArr (List.map js_of_reply l)
  end.

(** One position of the array [exec] calls back with. *)
Definition exec_item (c : Client) (r : reply) : value :=
  if wraps c then
    match r with
    | RError msg => VArr [VErr msg; VNull]
    | _ => VArr [VNull; js_of_reply r]
    end
  else js_of_reply r.

(** The arguments [(err, res)] a client hands to a callback. *)
Definition callback (A : Type) : Type := value * A.

(** [client.multi(). ... .exec(cb)] *)
Definition client_exec (c : Client) (cmds : list command) (d : db)
  : db * callback (list value) :=
  let '(d1, rs) := run_commands cmds d in
  (d1, (VNull, List.map (exec_item c) rs)).

Definition script_callback (out : db * (string + reply)) : db * callback value :=
  match out with
  | (d1, inl msg) => (d1, (VErr msg, VUndef))
  | (d1, inr r) => (d1, (VNull, js_of_reply r))
  end.

(** [client.eval(script, numkeys, ...args, cb)] *)
Definition client_eval (c : Client) (script : string) (numkeys : nat)
    (args : list value) (d : db) : db * callback value :=
  script_callback (run_lua script (take numkeys args) (drop numkeys args) d).

(** [client.defineCommand(name, { numberOfKeys, lua })] *)
Definition client_defineCommand (c : Client) (name : string)
    (numberOfKeys : nat) (lua : string) : Client :=
  {| status := status c; isReady := isReady c;
     defineCommand_fn := defineCommand_fn c;
     commands := <[name := (numberOfKeys, lua)]> (commands c);
     wraps := wraps c |}.

(** [client[name](...args, cb)] for a custom command. *)
Definition client_custom (c : Client) (name : string) (args : list value)
    (d : db) : db * callback value :=
  match commands c !! name with
  | Some (nk, lua) => script_callback (run_lua lua (take nk args) (drop nk args) d)
  | None => (d, (VErr "ERR unknown command", VUndef))
  end.

(** [typeof client[name] === 'function'] for a custom command. *)
Definition has_command (c : Client) (name : string) : bool :=
  bool_decide (is_Some (commands c !! name)).

(** [client.del(key, cb)]: the reply counts the keys removed. *)
Definition client_del (c : Client) (k : string) (d : db) : db * callback Z :=
  match run_command (DEL k) d with
  | (d1, RInt n) => (d1, (VNull, n))
  | (d1, r) => (d1, (js_of_reply r, 0))
  end.

(** ** The adapter: class RateLimiterRedis *)

(** The options the constructor reads. [super(opts)], the constructor of
    the parent class [RateLimiterStoreAbstract], is not among the sources;
    of what it does only the quota enters the model, and [opts_points]
    stands for the quota it leaves in [this.points]. No property below
    depends on how that quota comes from the options. *)
Record Opts := {
  redis : option Client;
  storeClient : option Client;
  rejectIfRedisNotReady : value;
  opts_points : Z;
}.

Record RateLimiterRedis := {
  client : Client;
  _rejectIfRedisNotReady : bool;
  points : Z;
}.

(** Evaluation either returns or throws. *)
Inductive completion (A : Type) :=
| Return (a : A)
| Throw (e : string).
Arguments Return {A} a.
Arguments Throw {A} e.

Definition constructor (opts : Opts) : completion RateLimiterRedis :=
  let c := match redis opts with
           | Some c => Some c
           | None => storeClient opts
           end in
  match c with
  | None => Throw "TypeError: Cannot read properties of undefined"
  | Some c =>
      Return
        {| client :=
             if defineCommand_fn c
             then client_defineCommand c "rlflxIncr" 1 incrTtlLuaScript
             else c;
           _rejectIfRedisNotReady := truthy (rejectIfRedisNotReady opts);
           points := opts_points opts |}
  end.

Definition is_ready_string (v : value) : bool :=
  match v with
  | VStr s => String.eqb s "ready"
  | _ => false
  end.

Definition _isRedisReady (this : RateLimiterRedis) : bool :=
  if negb (_rejectIfRedisNotReady this) then true
  else if truthy (status (client this)) && negb (is_ready_string (status (client this)))
  then false
  else if match isReady (client this) with
          | Some r => negb (truthy r)
          | None => false
          end
  then false
  else true.

(** Modelled from the spec: the class [RateLimiterRes] of
    lib/RateLimiterRes.js, which is not among the sources; these are the
    four fields of the OperationResult, all of which [_getRateLimiterRes]
    assigns. *)
Record RateLimiterRes := {
  consumedPoints : num;
  isFirstInDuration : bool;
  remainingPoints : num;
  msBeforeNext : value;
}.

Definition _getRateLimiterRes (this : RateLimiterRedis) (rlKey : string)
    (changedPoints : Z) (result : value) : completion RateLimiterRes :=
  match iterate result with
  | None => Throw "TypeError: result is not iterable"
  | Some l =>
      let consumed := element 0 l in
      let resTtlMs := element 1 l in
      let unwrapped :=
        if isArray consumed then
          match iterate consumed with
          | None => Throw "TypeError: consumed is not iterable"
          | Some lc =>
              match iterate resTtlMs with
              | None => Throw "TypeError: resTtlMs is not iterable"
              | Some lt => Return (element 1 lc, element 1 lt)
              end
          end
        else Return (consumed, resTtlMs) in
      match unwrapped with
      | Throw e => Throw e
      | Return (consumed, resTtlMs) =>
          let consumedPoints := parseInt consumed in
          Return
            {| consumedPoints := consumedPoints;
               isFirstInDuration := strict_eq_num consumedPoints changedPoints;
               remainingPoints :=
                 Math_max (num_sub (Int (points this)) consumedPoints) (Int 0);
               msBeforeNext := resTtlMs |}
      end
  end.

(** The calls an operation makes on the client. *)
Inductive call :=
| CallMulti
| CallExec (cmds : list command)
| CallCustom (name : string) (args : list value)
| CallEval (script : string) (numkeys : nat) (args : list value)
| CallDel (k : string).

(** The calls that send commands to the store; [multi()] only opens a
    queue on the client. *)
Definition sends (c : call) : bool :=
  match c with
  | CallMulti => false
  | _ => true
  end.

Inductive settled :=
| Resolved (v : value)
| Rejected (e : value).

Record run := Run {
  calls : list call;
  outcome : settled;
  store : db;
}.

Definition not_ready : settled :=
  Rejected (VErr "Redis connection is not ready").

(** [if (err) reject(err) else resolve(res)] *)
Definition settle (err res : value) : settled :=
  if truthy err then Rejected err else Resolved res.

Definition _upsert (this : RateLimiterRedis) (rlKey : string) (points : Z)
    (msDuration : Z) (forceExpire : bool) (d : db) : run :=
  if negb (_isRedisReady this) then Run [] not_ready d
  else
    let secDuration := floor_div msDuration 1000 in
    if forceExpire then
      let multi :=
        ((if 0 <? secDuration
         then [SET rlKey points (Some secDuration) false]
         else [SET rlKey points None false]) ++ [PTTL rlKey])%list in
      let '(d1, (err, res)) := client_exec (client this) multi d in
      Run [CallMulti; CallExec multi] (settle err (VArr res)) d1
    else if 0 <? secDuration then
      let args := [VStr rlKey; VNum (Int points); VNum (Int secDuration)] in
      if has_command (client this) "rlflxIncr" then
        let '(d1, (err, res)) := client_custom (client this) "rlflxIncr" args d in
        Run [CallMulti; CallCustom "rlflxIncr" args] (settle err res) d1
      else
        let '(d1, (err, res)) :=
          client_eval (client this) incrTtlLuaScript 1 args d in
        Run [CallMulti; CallEval incrTtlLuaScript 1 args] (settle err res) d1
    else
      let multi := [INCRBY rlKey points; PTTL rlKey] in
      let '(d1, (err, res)) := client_exec (client this) multi d in
      Run [CallMulti; CallExec multi] (settle err (VArr res)) d1.

Definition _get (this : RateLimiterRedis) (rlKey : string) (d : db) : run :=
  if negb (_isRedisReady this) then Run [] not_ready d
  else
    let multi := [GET rlKey; PTTL rlKey] in
    let '(d1, (err, res)) := client_exec (client this) multi d in
    Run [CallMulti; CallExec multi]
      (if truthy err then Rejected err
       else match element 0 res with
            | VNull => Resolved VNull
            | _ => Resolved (VArr res)
            end)
      d1.

Definition _delete (this : RateLimiterRedis) (rlKey : string) (d : db) : run :=
  let '(d1, (err, res)) := client_del (client this) rlKey d in
  Run [CallDel rlKey]
    (if truthy err then Rejected err else Resolved (VBool (0 <? res)))
    d1.

(** ** Sample clients and limiters *)

(** A client in the style of node-redis: bare replies, no custom commands. *)
Definition flat_client : Client :=
  {| status := VUndef; isReady := None; defineCommand_fn := false;
     commands := ∅; wraps := false |}.

(** A client in the style of ioredis: a [status] field, [defineCommand],
    and [exec] replies wrapped in pairs. *)
Definition wrapping_client (st : string) : Client :=
  {| status := VStr st; isReady := None; defineCommand_fn := true;
     commands := ∅; wraps := true |}.

(** The canonical result for a consumed value [c] and a TTL [t]. *)
Definition canonical (this : RateLimiterRedis) (changedPoints : Z)
    (c t : value) : RateLimiterRes :=
  {| consumedPoints := parseInt c;
     isFirstInDuration := strict_eq_num (parseInt c) changedPoints;
     remainingPoints :=
       Math_max (num_sub (Int (points this)) (parseInt c)) (Int 0);
     msBeforeNext := t |}.

(** The time to live the script leaves on the key: a counter that already
    expires keeps its time, any other gets the full window. *)
Definition script_ttl (d : db) (k : string) (sec : Z) : Z :=
  match ttl_of d k with
  | Some t => if t =? -1 then 1000 * sec else t
  | None => 1000 * sec
  end.

(** The command [rlflxIncr], when the client has one, is the one the
    constructor defines. *)
Definition script_bound (this : RateLimiterRedis) : bool :=
  match commands (client this) !! "rlflxIncr" with
  | Some (nk, lua) => Nat.eqb nk 1 && String.eqb lua incrTtlLuaScript
  | None => true
  end.

(** The way [_upsert] invokes the increment script. *)
Definition script_call (this : RateLimiterRedis) (args : list value) : call :=
  if has_command (client this) "rlflxIncr"
  then CallCustom "rlflxIncr" args
  else CallEval incrTtlLuaScript 1 args.

(** Replies that reach JavaScript as a scalar. *)
Definition scalar_reply (r : reply) : bool :=
  match r with
  | RError _ | RArray _ => false
  | _ => true
  end.

(** The limiter the constructor builds around client [c]. *)
Definition build (c : Client) (strict : value) (quota : Z) : RateLimiterRedis :=
  {| client :=
       if defineCommand_fn c
       then client_defineCommand c "rlflxIncr" 1 incrTtlLuaScript
       else c;
     _rejectIfRedisNotReady := truthy strict;
     points := quota |}.

Definition flat_limiter : RateLimiterRedis :=
  build flat_client (VBool true) 10.

Definition wrapping_limiter (st : string) : RateLimiterRedis :=
  build (wrapping_client st) (VBool true) 10.

(** Error messages of the store, as opposed to the adapter's own. *)
Definition store_message (msg : string) : bool := String.prefix "ERR" msg.

(** A script whose every error is a store message. *)
Definition store_errors {A} (m : Lua A) : Prop :=
  forall d d1 msg, m d = (d1, inl msg) -> store_message msg = true.



(** The integers of magnitude at most 2^52. The model computes with exact
    integers; the code computes with doubles, and the store with signed
    64-bit counters. On these integers the two agree: each of them, and
    the sum or the difference of two of them, is an exact double and lies
    well inside the 64-bit range. Beyond them a double rounds (above 2^53)
    and [INCRBY] refuses (past 2^63), which the model does not show; the
    properties that report a counter are therefore stated on this range. *)
Definition in_range (z : Z) : Prop :=
  -4503599627370496 <= z <= 4503599627370496.

(** One accumulating upsert of a run: [wait] ms pass, then [add] points
    are added for a window of [window] ms. *)
Record step := Step { wait : Z; window : Z; add : Z }.

(** A run of accumulating upserts on one key, each with a duration of its
    own. *)
Fixpoint upsert_run (this : RateLimiterRedis) (k : string)
    (steps : list step) (d : db) : list run :=
  match steps with
  | [] => []
  | s :: rest =>
      let r := _upsert this k (add s) (window s) false (advance (wait s) d) in
      r :: upsert_run this k rest (store r)
  end.

(** The points added and the time passed over a list of steps. *)
Definition added (steps : list step) : Z :=
  fold_right (fun s acc => add s + acc) 0 steps.

Definition waited (steps : list step) : Z :=
  fold_right (fun s acc => wait s + acc) 0 steps.

(** A command that asks for no expiry or for a positive one. *)
Definition positive_expiry (c : command) : bool :=
  match c with
  | SET _ _ (Some s) _ => 0 <? s
  | EXPIRE _ s => 0 <? s
  | _ => true
  end.

(** A call that asks the store for no expiry that is not positive: in a
    transaction every command does, and the script is invoked with the
    key, the points and a positive number of seconds. *)
Definition asks_positive_expiry (c : call) : bool :=
  match c with
  | CallExec cmds => forallb positive_expiry cmds
  | CallCustom _ [VStr _; VNum (Int _); VNum (Int s)] => 0 <? s
  | CallEval _ _ [VStr _; VNum (Int _); VNum (Int s)] => 0 <? s
  | CallCustom _ _ | CallEval _ _ _ => false
  | CallMulti | CallDel _ => true
  end.

(** * Properties *)

(** ** Sample evaluations *)

Example parseInt_status : parseInt (VStr "OK") = NaN.
Proof. reflexivity. Qed.

Example parseInt_prefix : parseInt (VStr "  -12px") = Int (-12).
Proof. reflexivity. Qed.

Example parseInt_hex : parseInt (VStr "0x1F") = Int 31.
Proof. reflexivity. Qed.

Example parseInt_null : parseInt VNull = NaN.
Proof. reflexivity. Qed.

Example to_string_array :
  to_string (VArr [VNum (Int 7); VNull; VNum (Int (-2))]) = "7,,-2".
Proof. reflexivity. Qed.

Example iterate_string :
  iterate (VStr "90") = Some [VStr "9"; VStr "0"].
Proof. reflexivity. Qed.

Example script_on_fresh_key :
  snd (run_lua incrTtlLuaScript [VStr "k"] [VNum (Int 5); VNum (Int 2)] ∅)
  = inr (RArray [RInt 5; RInt 2000]).
Proof. reflexivity. Qed.

Example script_rescues_missing_ttl :
  snd (run_lua incrTtlLuaScript [VStr "k"] [VNum (Int 5); VNum (Int 2)]
         {["k" := Entry 1 None]})
  = inr (RArray [RInt 6; RInt 2000]).
Proof. reflexivity. Qed.

Example script_rejects_zero_window :
  snd (run_lua incrTtlLuaScript [VStr "k"] [VNum (Int 5); VNum (Int 0)] ∅)
  = inl "ERR invalid expire time in 'set' command".
Proof. reflexivity. Qed.


(** ** parseInt reads back the decimal form of an integer *)

Lemma take_dec_string_of_uint (u : Decimal.uint) :
  take_dec (NilEmpty.string_of_uint u) = u.
Proof. induction u; simpl; congruence. Qed.

Lemma magnitude_string_of_uint (u : Decimal.uint) :
  u <> Decimal.Nil ->
  magnitude (NilEmpty.string_of_uint u) = Some (Z.of_uint u).
Proof.
  intros Hu.
  assert (Hdec : dec_magnitude (NilEmpty.string_of_uint u) = Some (Z.of_uint u)).
  { unfold dec_magnitude. rewrite take_dec_string_of_uint.
    destruct u; congruence. }
  destruct u as [|u|u|u|u|u|u|u|u|u|u]; try exact Hdec; try congruence.
  destruct u; exact Hdec.
Qed.

Lemma skip_ws_string_of_uint (u : Decimal.uint) :
  skip_ws (NilEmpty.string_of_uint u) = NilEmpty.string_of_uint u.
Proof. destruct u; reflexivity. Qed.

Lemma parseInt_string_of_uint (u : Decimal.uint) :
  u <> Decimal.Nil ->
  parseInt_string (NilEmpty.string_of_uint u) = Int (Z.of_uint u).
Proof.
  intros Hu. unfold parseInt_string. rewrite skip_ws_string_of_uint.
  pose proof (magnitude_string_of_uint u Hu) as Hm.
  destruct u; try congruence;
    cbn [NilEmpty.string_of_uint] in *; cbv iota beta; rewrite Hm; reflexivity.
Qed.

Lemma string_of_uint_nonnil (u : Decimal.uint) :
  u <> Decimal.Nil -> NilZero.string_of_uint u = NilEmpty.string_of_uint u.
Proof. destruct u; [congruence | reflexivity ..]. Qed.

Lemma parseInt_string_Z (z : Z) : parseInt_string (Z_to_string z) = Int z.
Proof.
  unfold Z_to_string. destruct z as [|p|p]; [reflexivity | |];
    pose proof (Unsigned.to_uint_nonnil p) as Hn;
    cbn [Z.to_int NilZero.string_of_int];
    rewrite string_of_uint_nonnil by exact Hn.
  - rewrite parseInt_string_of_uint by exact Hn.
    unfold Z.of_uint. rewrite DecimalPos.Unsigned.of_to. reflexivity.
  - unfold parseInt_string.
    change (skip_ws (String "-" ?s)) with (String "-" s).
    cbv iota beta.
    rewrite magnitude_string_of_uint by exact Hn.
    unfold Z.of_uint. rewrite DecimalPos.Unsigned.of_to. reflexivity.
Qed.

Lemma parseInt_Int (z : Z) : parseInt (VNum (Int z)) = Int z.
Proof. apply parseInt_string_Z. Qed.

Lemma parseInt_decimal (z : Z) : parseInt (VStr (Z_to_string z)) = Int z.
Proof. apply parseInt_string_Z. Qed.

(** ** Store commands *)

Section store.
Implicit Types (d : db) (k : string).

Lemma run_incrby d k n :
  run_command (INCRBY k n) d
  = (<[k := Entry (counter d k + n) (ttl_of d k)]> d, RInt (counter d k + n)).
Proof.
  unfold run_command, counter, ttl_of.
  destruct (d !! k) as [e|]; reflexivity.
Qed.

Lemma run_pttl_insert d k v t :
  run_command (PTTL k) (<[k := Entry v t]> d)
  = (<[k := Entry v t]> d, RInt (default (-1) t)).
Proof. unfold run_command. rewrite lookup_insert_eq. reflexivity. Qed.

Lemma run_set_plain d k v ex :
  (forall s, ex = Some s -> 0 < s) ->
  run_command (SET k v ex false) d
  = (<[k := Entry v (Z.mul 1000 <$> ex)]> d, RStatus "OK").
Proof.
  intros Hex. unfold run_command.
  destruct ex as [s|]; [|reflexivity].
  specialize (Hex s eq_refl).
  destruct (Z.leb_spec s 0); [lia | reflexivity].
Qed.

Lemma counter_insert d k v t : counter (<[k := Entry v t]> d) k = v.
Proof. unfold counter. rewrite lookup_insert_eq. reflexivity. Qed.

Lemma ttl_of_insert d k v t : ttl_of (<[k := Entry v t]> d) k = t.
Proof. unfold ttl_of. rewrite lookup_insert_eq. reflexivity. Qed.

Lemma lookup_advance dt d k : advance dt d !! k = d !! k ≫= age dt.
Proof. unfold advance. apply lookup_omap. Qed.

(** A counter without expiry outlives any amount of time. *)
Lemma advance_persistent dt d k v :
  d !! k = Some (Entry v None) -> advance dt d !! k = Some (Entry v None).
Proof. intros H. rewrite lookup_advance, H. reflexivity. Qed.

Lemma advance_absent dt d k : d !! k = None -> advance dt d !! k = None.
Proof. intros H. rewrite lookup_advance, H. reflexivity. Qed.

(** A counter is still there as long as its time is not up. *)
Lemma advance_live dt d k v t :
  d !! k = Some (Entry v (Some t)) -> dt < t ->
  advance dt d !! k = Some (Entry v (Some (t - dt))).
Proof.
  intros H Hlt. rewrite lookup_advance, H. cbn. unfold age. cbn.
  destruct (Z.ltb_spec dt t); [reflexivity | lia].
Qed.

Lemma advance_expired dt d k v t :
  d !! k = Some (Entry v (Some t)) -> t <= dt -> advance dt d !! k = None.
Proof.
  intros H Hle. rewrite lookup_advance, H. cbn. unfold age. cbn.
  destruct (Z.ltb_spec dt t); [lia | reflexivity].
Qed.
End store.

(** ** The increment script *)

Lemma incrTtl_run (k : string) (p sec : Z) (d : db) :
  0 < sec ->
  incrTtl [VStr k] [VNum (Int p); VNum (Int sec)] d
  = (<[k := Entry (counter d k + p) (Some (script_ttl d k sec))]> d,
     inr (RArray [RInt (counter d k + p); RInt (script_ttl d k sec)])).
Proof.
  intros Hsec.
  assert (Hle : (sec <=? 0) = false) by (apply Z.leb_gt; lia).
  assert (Hne : (1000 * sec =? -1) = false) by (apply Z.eqb_neq; lia).
  unfold incrTtl, lua_bind, lua_key, lua_int, redis_call, reply_int, lua_ret,
    script_ttl, counter, ttl_of.
  cbn [lookup list_lookup pred run_command].
  rewrite Hle. cbn [andb].
  destruct (d !! k) as [[v t]|] eqn:Hk.
  - rewrite bool_decide_eq_true_2 by eauto.
    rewrite Hk. cbn [e_val e_ttl mbind option_bind].
    rewrite lookup_insert_eq. cbn [e_val e_ttl default].
    destruct t as [t|]; cbn [default]; unfold id.
    + destruct (t =? -1) eqn:Ht; [|reflexivity].
      cbv beta. rewrite lookup_insert_eq. cbn [e_val].
      rewrite insert_insert_eq. reflexivity.
    + change (-1 =? -1) with true. cbv beta iota.
      rewrite lookup_insert_eq. cbn [e_val].
      rewrite insert_insert_eq. reflexivity.
  - rewrite bool_decide_eq_false_2 by (intros [? ?]; congruence).
    cbn [fmap option_fmap option_map].
    rewrite lookup_insert_eq. cbn [e_val e_ttl mbind option_bind].
    rewrite lookup_insert_eq. cbn [e_val e_ttl default]. unfold id.
    rewrite Hne, !insert_insert_eq. rewrite Z.add_0_l. reflexivity.
Qed.

Lemma run_lua_incrTtl (KEYS ARGV : list value) :
  run_lua incrTtlLuaScript KEYS ARGV = incrTtl KEYS ARGV.
Proof. unfold run_lua. rewrite String.eqb_refl. reflexivity. Qed.

(** ** The reply normalizer *)

Section normalizer.
Variable this : RateLimiterRedis.
Implicit Types (k : string) (p : Z) (c t : value).

Lemma normalize_flat k p c t rest :
  isArray c = false ->
  _getRateLimiterRes this k p (VArr (c :: t :: rest))
  = Return (canonical this p c t).
Proof.
  intros Hc. unfold _getRateLimiterRes.
  cbn [iterate element nth]. rewrite Hc. reflexivity.
Qed.

Lemma normalize_wrapped k p m1 c r1 m2 t r2 rest :
  _getRateLimiterRes this k p
    (VArr (VArr (m1 :: c :: r1) :: VArr (m2 :: t :: r2) :: rest))
  = Return (canonical this p c t).
Proof. reflexivity. Qed.

Lemma js_of_scalar_reply r : scalar_reply r = true -> isArray (js_of_reply r) = false.
Proof. destruct r; cbn; congruence. Qed.

(** Whatever the shape of the client's [exec] replies, a pair of scalar
    replies is normalized to the same canonical result. *)
Lemma normalize_exec k p r1 r2 :
  scalar_reply r1 = true -> scalar_reply r2 = true ->
  _getRateLimiterRes this k p
    (VArr (List.map (exec_item (client this)) [r1; r2]))
  = Return (canonical this p (js_of_reply r1) (js_of_reply r2)).
Proof.
  intros H1 H2. cbn [List.map]. unfold exec_item.
  destruct (wraps (client this)).
  - destruct r1; try discriminate H1; destruct r2; try discriminate H2;
      apply normalize_wrapped.
  - apply normalize_flat, js_of_scalar_reply, H1.
Qed.

Lemma canonical_Int p z t :
  canonical this p (VNum (Int z)) t
  = {| consumedPoints := Int z;
       isFirstInDuration := z =? p;
       remainingPoints := Int (Z.max (points this - z) 0);
       msBeforeNext := t |}.
Proof. unfold canonical. rewrite parseInt_Int. reflexivity. Qed.
End normalizer.

(** ** The readiness gate *)

Lemma _upsert_not_ready this k p ms fe d :
  _isRedisReady this = false -> _upsert this k p ms fe d = Run [] not_ready d.
Proof. intros H. unfold _upsert. rewrite H. reflexivity. Qed.

Lemma _get_not_ready this k d :
  _isRedisReady this = false -> _get this k d = Run [] not_ready d.
Proof. intros H. unfold _get. rewrite H. reflexivity. Qed.

Lemma _delete_calls this k d : calls (_delete this k d) = [CallDel k].
Proof.
  unfold _delete. destruct (client_del (client this) k d) as [d1 [err res]].
  reflexivity.
Qed.

Lemma _delete_run this k d :
  _delete this k d
  = match d !! k with
    | Some _ => Run [CallDel k] (Resolved (VBool true)) (delete k d)
    | None => Run [CallDel k] (Resolved (VBool false)) d
    end.
Proof.
  unfold _delete, client_del, run_command.
  destruct (d !! k); reflexivity.
Qed.

(** ** What [_upsert] does once the gate is passed *)

Section upsert.
Variable this : RateLimiterRedis.
Hypothesis Hready : _isRedisReady this = true.
Implicit Types (k : string) (p ms : Z) (d : db).

Lemma _upsert_forced k p ms d :
  _upsert this k p ms true d
  = let ex := if 0 <? ms / 1000 then Some (ms / 1000) else None in
    Run [CallMulti; CallExec [SET k p ex false; PTTL k]]
      (Resolved
         (VArr (List.map (exec_item (client this))
                  [RStatus "OK"; RInt (default (-1) (Z.mul 1000 <$> ex))])))
      (<[k := Entry p (Z.mul 1000 <$> ex)]> d).
Proof.
  unfold _upsert, floor_div. rewrite Hready. cbn [negb].
  destruct (Z.ltb_spec 0 (ms / 1000)) as [Hpos|Hnpos];
    unfold client_exec; cbn [app run_commands];
    rewrite run_set_plain, run_pttl_insert;
    solve [reflexivity | intros s [= <-]; exact Hpos | intros s [=]].
Qed.

Lemma _upsert_incr_plain k p ms d :
  ms / 1000 <= 0 ->
  _upsert this k p ms false d
  = Run [CallMulti; CallExec [INCRBY k p; PTTL k]]
      (Resolved
         (VArr (List.map (exec_item (client this))
                  [RInt (counter d k + p); RInt (default (-1) (ttl_of d k))])))
      (<[k := Entry (counter d k + p) (ttl_of d k)]> d).
Proof.
  intros Hsec. unfold _upsert, floor_div. rewrite Hready. cbn [negb].
  destruct (Z.ltb_spec 0 (ms / 1000)); [lia|].
  unfold client_exec. cbn [run_commands].
  rewrite run_incrby, run_pttl_insert. reflexivity.
Qed.

Lemma _upsert_incr_script k p ms d :
  0 < ms / 1000 -> script_bound this = true ->
  _upsert this k p ms false d
  = Run [CallMulti;
         script_call this [VStr k; VNum (Int p); VNum (Int (ms / 1000))]]
      (Resolved
         (VArr [VNum (Int (counter d k + p));
                VNum (Int (script_ttl d k (ms / 1000)))]))
      (<[k := Entry (counter d k + p) (Some (script_ttl d k (ms / 1000)))]> d).
Proof.
  intros Hsec Hbound. unfold _upsert, floor_div, script_call.
  rewrite Hready. cbn [negb].
  destruct (Z.ltb_spec 0 (ms / 1000)); [|lia].
  unfold script_bound in Hbound. unfold has_command.
  destruct (commands (client this) !! "rlflxIncr") as [[nk lua]|] eqn:Hcmd.
  - rewrite bool_decide_eq_true_2 by eauto.
    apply andb_prop in Hbound as [Hnk Hlua].
    apply Nat.eqb_eq in Hnk. apply String.eqb_eq in Hlua. subst nk lua.
    unfold client_custom. rewrite Hcmd, run_lua_incrTtl.
    cbn [take drop]. rewrite incrTtl_run by assumption. reflexivity.
  - rewrite bool_decide_eq_false_2 by (intros [? ?]; congruence).
    unfold client_eval. rewrite run_lua_incrTtl.
    cbn [take drop]. rewrite incrTtl_run by assumption. reflexivity.
Qed.
End upsert.

(** ** The constructor *)

Lemma constructor_build c other strict quota :
  constructor {| redis := Some c; storeClient := other;
                 rejectIfRedisNotReady := strict; opts_points := quota |}
  = Return (build c strict quota).
Proof. reflexivity. Qed.

Lemma build_script_bound c strict quota :
  defineCommand_fn c = true \/ commands c !! "rlflxIncr" = None ->
  script_bound (build c strict quota) = true.
Proof.
  unfold script_bound, build. cbn [client].
  destruct (defineCommand_fn c) eqn:Hdef.
  - intros _. cbn [client_defineCommand commands].
    rewrite lookup_insert_eq, String.eqb_refl. reflexivity.
  - intros [H|H]; [discriminate|]. rewrite H. reflexivity.
Qed.

(** ** Errors of the store never read as the adapter's own *)

Lemma store_errors_ret {A} (a : A) : store_errors (lua_ret a).
Proof. intros d d1 msg [=]. Qed.

Lemma store_errors_error {A} msg :
  store_message msg = true -> store_errors (@lua_error A msg).
Proof. intros H d d1 msg' [= _ <-]. exact H. Qed.

Lemma store_errors_bind {A B} (m : Lua A) (f : A -> Lua B) :
  store_errors m -> (forall a, store_errors (f a)) ->
  store_errors (lua_bind m f).
Proof.
  intros Hm Hf d d1 msg. unfold lua_bind.
  destruct (m d) as [d2 [e|a]] eqn:Hmd.
  - intros [= <- <-]. eapply Hm, Hmd.
  - apply Hf.
Qed.

Lemma run_command_error c d d1 msg :
  run_command c d = (d1, RError msg) -> store_message msg = true.
Proof.
  destruct c; cbn [run_command];
    repeat match goal with
           | |- context [if ?b then _ else _] => destruct b
           | |- context [match ?x with _ => _ end] => destruct x
           end;
    intros [=]; subst; reflexivity.
Qed.

Lemma store_errors_redis_call c : store_errors (redis_call c).
Proof.
  intros d d1 msg. unfold redis_call.
  destruct (run_command c d) as [d2 r] eqn:Hrun.
  destruct r; intros [=]; subst. eapply run_command_error, Hrun.
Qed.

Lemma store_errors_incrTtl KEYS ARGV : store_errors (incrTtl KEYS ARGV).
Proof.
  unfold incrTtl, lua_key, lua_int, reply_int.
  repeat first
    [ apply store_errors_bind; [|intros ?]
    | apply store_errors_redis_call
    | apply store_errors_ret
    | apply store_errors_error; reflexivity
    | match goal with
      | |- store_errors (match ?x with _ => _ end) => destruct x
      | |- store_errors (if ?b then _ else _) => destruct b
      end ].
Qed.

Lemma store_errors_run_lua script KEYS ARGV :
  store_errors (run_lua script KEYS ARGV).
Proof.
  unfold run_lua. destruct (String.eqb script incrTtlLuaScript).
  - apply store_errors_incrTtl.
  - apply store_errors_error. reflexivity.
Qed.

Lemma script_callback_settle out d1 err res :
  (forall d2 msg, out = (d2, inl msg) -> store_message msg = true) ->
  script_callback out = (d1, (err, res)) ->
  settle err res <> not_ready.
Proof.
  intros Hout. destruct out as [d2 [msg|r]]; cbn; intros [= <- <- <-].
  - specialize (Hout d2 msg eq_refl). cbn. intros [= ->]. discriminate Hout.
  - discriminate.
Qed.

(** ** The gate in front of the operations *)

Lemma sec_positive (ms : Z) : (0 <? ms / 1000) = (1000 <=? ms).
Proof.
  pose proof (Z.div_mod ms 1000 ltac:(lia)).
  pose proof (Z.mod_pos_bound ms 1000 ltac:(lia)).
  destruct (Z.ltb_spec 0 (ms / 1000)), (Z.leb_spec 1000 ms); lia.
Qed.

Lemma _upsert_settles this k p ms fe d :
  _isRedisReady this = true ->
  Exists (fun c => sends c = true) (calls (_upsert this k p ms fe d)) /\
  outcome (_upsert this k p ms fe d) <> not_ready.
Proof.
  intros Hready. unfold _upsert. rewrite Hready. cbn [negb].
  destruct fe; [|destruct (0 <? floor_div ms 1000);
                  [destruct (has_command (client this) "rlflxIncr")|]].
  - unfold client_exec.
    destruct (run_commands _ d) as [d1 rs]. cbn [calls outcome].
    split; [apply Exists_cons_tl, Exists_cons_hd; reflexivity | discriminate].
  - destruct (client_custom _ _ _ d) as [d1 [err res]] eqn:Hc.
    cbn [calls outcome].
    split; [apply Exists_cons_tl, Exists_cons_hd; reflexivity|].
    unfold client_custom in Hc.
    destruct (commands (client this) !! "rlflxIncr") as [[nk lua]|].
    + eapply script_callback_settle; [|exact Hc].
      intros d2 msg. apply store_errors_run_lua.
    + injection Hc as <- <- <-. discriminate.
  - destruct (client_eval _ _ _ _ d) as [d1 [err res]] eqn:Hc.
    cbn [calls outcome].
    split; [apply Exists_cons_tl, Exists_cons_hd; reflexivity|].
    eapply script_callback_settle; [|exact Hc].
    intros d2 msg. apply store_errors_run_lua.
  - unfold client_exec.
    destruct (run_commands _ d) as [d1 rs]. cbn [calls outcome].
    split; [apply Exists_cons_tl, Exists_cons_hd; reflexivity | discriminate].
Qed.

Lemma _get_settles this k d :
  _isRedisReady this = true ->
  Exists (fun c => sends c = true) (calls (_get this k d)) /\
  outcome (_get this k d) <> not_ready.
Proof.
  intros Hready. unfold _get. rewrite Hready. cbn [negb].
  unfold client_exec. destruct (run_commands _ d) as [d1 rs].
  cbn [calls outcome truthy].
  split; [apply Exists_cons_tl, Exists_cons_hd; reflexivity|].
  destruct (element 0 _); discriminate.
Qed.

Lemma _delete_settles this k d :
  Exists (fun c => sends c = true) (calls (_delete this k d)) /\
  outcome (_delete this k d) <> not_ready.
Proof.
  rewrite _delete_run. destruct (d !! k); cbn [calls outcome];
    (split; [apply Exists_cons_hd; reflexivity | discriminate]).
Qed.

(** C1 (the code departs from the claim). With fast-fail mode on and a
    connection that reports it is still connecting, the readiness check is
    false and [_upsert] and [_get] reject at once with the not-ready error
    and no call on the client; [_delete] has no such check: it sends [DEL],
    which removes the key, and resolves to [true]. *)
Theorem delete_skips_readiness_gate :
  let this := wrapping_limiter "connecting" in
  let d : db := {["k" := Entry 3 None]} in
  _isRedisReady this = false /\
  _upsert this "k" 1 5000 false d = Run [] not_ready d /\
  _get this "k" d = Run [] not_ready d /\
  calls (_delete this "k" d) = [CallDel "k"] /\
  outcome (_delete this "k" d) = Resolved (VBool true) /\
  store (_delete this "k" d) !! "k" = None.
Proof.
  intros this d.
  assert (Hgate : _isRedisReady this = false) by reflexivity.
  split; [exact Hgate|].
  split; [apply _upsert_not_ready, Hgate|].
  split; [apply _get_not_ready, Hgate|].
  rewrite _delete_run.
  assert (Hk : d !! "k" = Some (Entry 3 None)) by apply lookup_singleton_eq.
  rewrite Hk. cbn [calls outcome store].
  split; [reflexivity|]. split; [reflexivity|]. apply lookup_delete_eq.
Qed.

Lemma _upsert_calls_ready this k p ms fe d :
  _isRedisReady this = true ->
  calls (_upsert this k p ms fe d)
  = [CallMulti;
     if 1000 <=? ms then
       if fe then CallExec [SET k p (Some (ms / 1000)) false; PTTL k]
       else script_call this [VStr k; VNum (Int p); VNum (Int (ms / 1000))]
     else
       if fe then CallExec [SET k p None false; PTTL k]
       else CallExec [INCRBY k p; PTTL k]].
Proof.
  intros Hready. unfold _upsert, script_call, floor_div.
  rewrite <- sec_positive, Hready. cbn [negb].
  destruct fe, (0 <? ms / 1000); cbn [app].
  - destruct (client_exec _ _ d) as [d1 [err res]]. reflexivity.
  - destruct (client_exec _ _ d) as [d1 [err res]]. reflexivity.
  - destruct (has_command (client this) "rlflxIncr").
    + destruct (client_custom _ _ _ d) as [d1 [err res]]. reflexivity.
    + destruct (client_eval _ _ _ _ d) as [d1 [err res]]. reflexivity.
  - destruct (client_exec _ _ d) as [d1 [err res]]. reflexivity.
Qed.

Lemma _get_calls_ready this k d :
  _isRedisReady this = true ->
  calls (_get this k d) = [CallMulti; CallExec [GET k; PTTL k]].
Proof.
  intros Hready. unfold _get. rewrite Hready. cbn [negb].
  destruct (client_exec _ _ d) as [d1 [err res]]. reflexivity.
Qed.

(** C10. With fast-fail mode on, when the client has neither a truthy
    [status] field nor an [isReady] function, the readiness check is true
    and every operation goes on to issue its store command instead of
    failing with the not-ready error: [_upsert] opens a queue and sends the
    command of its branch (the [SET] with [PTTL], the increment script with
    the key, the points and the seconds, or [INCRBY] with [PTTL]), [_get]
    sends [GET] with [PTTL], [_delete] sends [DEL], each for the key it was
    given, and none of them settles with the not-ready error. *)
Theorem unknown_client_passes_gate (this : RateLimiterRedis) :
  _rejectIfRedisNotReady this = true ->
  truthy (status (client this)) = false ->
  isReady (client this) = None ->
  _isRedisReady this = true /\
  (forall k p ms fe d,
      calls (_upsert this k p ms fe d)
      = [CallMulti;
         if 1000 <=? ms then
           if fe then CallExec [SET k p (Some (ms / 1000)) false; PTTL k]
           else script_call this [VStr k; VNum (Int p); VNum (Int (ms / 1000))]
         else
           if fe then CallExec [SET k p None false; PTTL k]
           else CallExec [INCRBY k p; PTTL k]] /\
      outcome (_upsert this k p ms fe d) <> not_ready) /\
  (forall k d,
      calls (_get this k d) = [CallMulti; CallExec [GET k; PTTL k]] /\
      outcome (_get this k d) <> not_ready) /\
  (forall k d,
      calls (_delete this k d) = [CallDel k] /\
      outcome (_delete this k d) <> not_ready).
Proof.
  intros Hstrict Hstatus Hprobe.
  assert (Hready : _isRedisReady this = true).
  { unfold _isRedisReady. rewrite Hstrict, Hstatus, Hprobe. reflexivity. }
  split; [exact Hready|].
  split; [intros k p ms fe d; split;
          [apply _upsert_calls_ready, Hready
          | apply _upsert_settles, Hready]|].
  split; [intros k d; split;
          [apply _get_calls_ready, Hready | apply _get_settles, Hready]|].
  intros k d. split; [apply _delete_calls | apply _delete_settles].
Qed.

Lemma unknown_client_passes_gate_witness :
  _isRedisReady flat_limiter = true /\
  calls (_get flat_limiter "k" ∅) = [CallMulti; CallExec [GET "k"; PTTL "k"]] /\
  calls (_upsert flat_limiter "k" 2 3000 false ∅)
  = [CallMulti;
     CallEval incrTtlLuaScript 1 [VStr "k"; VNum (Int 2); VNum (Int 3)]].
Proof.
  destruct (unknown_client_passes_gate flat_limiter)
    as (Hready & Hupsert & Hget & _); [reflexivity ..|].
  split; [exact Hready|].
  split; [apply (Hget "k" ∅) | apply (Hupsert "k" 2 3000 false ∅)].
Defined.

(** ** Which branch [_upsert] takes *)

(** C3 as stated fails: with a duration of 500 ms (greater than 0) the
    branch without expiry is taken, for both values of [forceExpire]. *)
Lemma expiry_branch_counterexample :
  0 < 500 /\
  calls (_upsert flat_limiter "k" 5 500 false ∅)
  = [CallMulti; CallExec [INCRBY "k" 5; PTTL "k"]] /\
  calls (_upsert flat_limiter "k" 5 500 true ∅)
  = [CallMulti; CallExec [SET "k" 5 None false; PTTL "k"]].
Proof. split; [lia|]. split; reflexivity. Qed.

(** C3, amended. Past the gate, the branch that attaches an expiry is
    selected exactly when [msDuration >= 1000], that is when
    [floor(msDuration / 1000) > 0]: without [forceExpire] the increment
    script is invoked with [(key, points, floor(msDuration / 1000))], with
    [forceExpire] the [SET] carries [EX floor(msDuration / 1000)]; for any
    smaller duration the commands carry no expiry. *)
Theorem upsert_branch_selection this k p ms fe d :
  calls (_upsert this k p ms fe d)
  = if _isRedisReady this then
      [CallMulti;
       if 1000 <=? ms then
         if fe then CallExec [SET k p (Some (ms / 1000)) false; PTTL k]
         else script_call this [VStr k; VNum (Int p); VNum (Int (ms / 1000))]
       else
         if fe then CallExec [SET k p None false; PTTL k]
         else CallExec [INCRBY k p; PTTL k]]
    else [].
Proof.
  unfold _upsert, script_call, floor_div. rewrite <- sec_positive.
  destruct (_isRedisReady this); [|reflexivity]. cbn [negb].
  destruct fe, (0 <? ms / 1000); cbn [app].
  - destruct (client_exec _ _ d) as [d1 [err res]]. reflexivity.
  - destruct (client_exec _ _ d) as [d1 [err res]]. reflexivity.
  - destruct (has_command (client this) "rlflxIncr").
    + destruct (client_custom _ _ _ d) as [d1 [err res]]. reflexivity.
    + destruct (client_eval _ _ _ _ d) as [d1 [err res]]. reflexivity.
  - destruct (client_exec _ _ d) as [d1 [err res]]. reflexivity.
Qed.

(** ** Reply shapes *)

(** C4 as stated fails on mixed replies: with the first position wrapped
    and the second bare the normalizer throws, and with the first bare and
    the second wrapped the TTL stays wrapped. *)
Lemma mixed_reply_counterexample :
  _getRateLimiterRes flat_limiter "k" 5 (VArr [VNum (Int 5); VNum (Int 9000)])
  = Return {| consumedPoints := Int 5; isFirstInDuration := true;
              remainingPoints := Int 5; msBeforeNext := VNum (Int 9000) |} /\
  _getRateLimiterRes flat_limiter "k" 5
    (VArr [VArr [VNull; VNum (Int 5)]; VNum (Int 9000)])
  = Throw "TypeError: resTtlMs is not iterable" /\
  _getRateLimiterRes flat_limiter "k" 5
    (VArr [VNum (Int 5); VArr [VNull; VNum (Int 9000)]])
  = Return {| consumedPoints := Int 5; isFirstInDuration := true;
              remainingPoints := Int 5;
              msBeforeNext := VArr [VNull; VNum (Int 9000)] |}.
Proof. repeat split. Qed.

(** C4, amended. The normalizer reads the shape of the reply off its first
    position alone: for a scalar consumed value [c] and any TTL [t], the
    flat reply [(c, t)] and the reply with both positions wrapped,
    [((m1, c), (m2, t))], give the same canonical result. *)
Theorem flat_and_wrapped_agree this k p c t m1 m2 :
  isArray c = false ->
  _getRateLimiterRes this k p (VArr [VArr [m1; c]; VArr [m2; t]])
  = _getRateLimiterRes this k p (VArr [c; t]) /\
  _getRateLimiterRes this k p (VArr [c; t]) = Return (canonical this p c t).
Proof.
  intros Hc. rewrite normalize_wrapped, normalize_flat by exact Hc.
  split; reflexivity.
Qed.

Lemma flat_and_wrapped_agree_witness :
  _getRateLimiterRes flat_limiter "k" 5
    (VArr [VArr [VNull; VNum (Int 5)]; VArr [VNull; VNum (Int 9000)]])
  = _getRateLimiterRes flat_limiter "k" 5 (VArr [VNum (Int 5); VNum (Int 9000)]).
Proof.
  apply (flat_and_wrapped_agree flat_limiter "k" 5
           (VNum (Int 5)) (VNum (Int 9000)) VNull VNull).
  reflexivity.
Defined.

(** ** Forced overwrite *)




(** ** Accumulating within a window *)

(** C5 as stated fails. With 500 ms the first upsert takes the branch
    without expiry and reports [-1] for [msBeforeNext]; with 1500 ms it
    reports 1000; and after a first upsert of 0 points the second one still
    has [isFirstInDuration] set. *)
Lemma first_upsert_counterexample :
  outcome (_upsert flat_limiter "k" 5 500 false ∅)
  = Resolved (VArr [VNum (Int 5); VNum (Int (-1))]) /\
  outcome (_upsert flat_limiter "k" 5 1500 false ∅)
  = Resolved (VArr [VNum (Int 5); VNum (Int 1000)]) /\
  let r1 := _upsert flat_limiter "k" 0 5000 false ∅ in
  let r2 := _upsert flat_limiter "k" 3 5000 false (store r1) in
  outcome r2 = Resolved (VArr [VNum (Int 3); VNum (Int 5000)]) /\
  _getRateLimiterRes flat_limiter "k" 3 (VArr [VNum (Int 3); VNum (Int 5000)])
  = Return {| consumedPoints := Int 3; isFirstInDuration := true;
              remainingPoints := Int 7; msBeforeNext := VNum (Int 5000) |}.
Proof.
  cbv zeta.
  rewrite _upsert_incr_plain by (reflexivity || (cbn; lia)).
  rewrite !_upsert_incr_script by reflexivity.
  cbn [outcome store].
  unfold script_ttl. rewrite !ttl_of_insert, !counter_insert.
  repeat split.
Qed.

Lemma ttl_of_absent (d : db) (k : string) : d !! k = None -> ttl_of d k = None.
Proof. intros H. unfold ttl_of. rewrite H. reflexivity. Qed.

Lemma counter_absent (d : db) (k : string) : d !! k = None -> counter d k = 0.
Proof. intros H. unfold counter. rewrite H. reflexivity. Qed.

(** The normalized result of an accumulating upsert, for either shape of
    reply: the counter after the call and the time the key has left. *)
Lemma _upsert_incr_normalized this k p ms d :
  _isRedisReady this = true -> script_bound this = true ->
  let r := _upsert this k p ms false d in
  let left := if 1000 <=? ms then script_ttl d k (ms / 1000)
              else default (-1) (ttl_of d k) in
  store r = <[k := Entry (counter d k + p)
                    (if 1000 <=? ms then Some left else ttl_of d k)]> d /\
  exists raw,
    outcome r = Resolved raw /\
    _getRateLimiterRes this k p raw
    = Return {| consumedPoints := Int (counter d k + p);
                isFirstInDuration := counter d k =? 0;
                remainingPoints := Int (Z.max (points this - (counter d k + p)) 0);
                msBeforeNext := VNum (Int left) |}.
Proof.
  intros Hready Hbound r left. subst r left.
  assert (Hfirst : (counter d k + p =? p) = (counter d k =? 0)).
  { destruct (Z.eqb_spec (counter d k + p) p), (Z.eqb_spec (counter d k) 0);
      lia || reflexivity. }
  rewrite <- sec_positive.
  destruct (Z.ltb_spec 0 (ms / 1000)) as [Hsec|Hsec].
  - rewrite _upsert_incr_script by assumption. cbn [store outcome].
    split; [reflexivity|]. eexists. split; [reflexivity|].
    rewrite normalize_flat by reflexivity.
    rewrite canonical_Int, Hfirst. reflexivity.
  - rewrite _upsert_incr_plain by assumption. cbn [store outcome].
    split; [reflexivity|]. eexists. split; [reflexivity|].
    rewrite normalize_exec by reflexivity. cbn [js_of_reply].
    rewrite canonical_Int, Hfirst. reflexivity.
Qed.

(** C5, amended. For [msDuration >= 1000] and points within the exact
    range (as are their sum and the quota), past the gate and with the
    constructor's script behind [rlflxIncr]: the first accumulating upsert
    on a fresh key yields [consumedPoints = points],
    [isFirstInDuration = true] and
    [msBeforeNext = 1000 * floor(msDuration / 1000)]; a second one on the
    same key, [dt] ms later and before that time is up, yields
    [consumedPoints = points1 + points2] and the time left, and has
    [isFirstInDuration] set exactly when [points1] is 0. *)
Theorem first_and_second_upsert this k p1 p2 ms1 ms2 dt d :
  _isRedisReady this = true -> script_bound this = true ->
  in_range (points this) ->
  in_range p1 -> in_range p2 -> in_range (p1 + p2) ->
  d !! k = None ->
  1000 <= ms1 ->
  0 <= dt < 1000 * (ms1 / 1000) ->
  let r1 := _upsert this k p1 ms1 false d in
  let r2 := _upsert this k p2 ms2 false (advance dt (store r1)) in
  exists raw1 raw2,
    outcome r1 = Resolved raw1 /\
    outcome r2 = Resolved raw2 /\
    _getRateLimiterRes this k p1 raw1
    = Return {| consumedPoints := Int p1;
                isFirstInDuration := true;
                remainingPoints := Int (Z.max (points this - p1) 0);
                msBeforeNext := VNum (Int (1000 * (ms1 / 1000))) |} /\
    _getRateLimiterRes this k p2 raw2
    = Return {| consumedPoints := Int (p1 + p2);
                isFirstInDuration := p1 =? 0;
                remainingPoints := Int (Z.max (points this - (p1 + p2)) 0);
                msBeforeNext := VNum (Int (1000 * (ms1 / 1000) - dt)) |}.
Proof.
  intros Hready Hbound _ _ _ _ Hfresh Hms Hdt r1 r2.
  destruct (_upsert_incr_normalized this k p1 ms1 d Hready Hbound)
    as (Hstore1 & raw1 & Hout1 & Hres1).
  fold r1 in Hstore1, Hout1.
  assert (Hms' : (1000 <=? ms1) = true) by (apply Z.leb_le; exact Hms).
  rewrite Hms' in Hstore1, Hres1.
  unfold script_ttl in Hstore1, Hres1.
  rewrite (ttl_of_absent d k Hfresh), (counter_absent d k Hfresh) in Hstore1, Hres1.
  rewrite Z.add_0_l in Hstore1, Hres1.
  set (d2 := advance dt (store r1)).
  assert (Hk2 : d2 !! k = Some (Entry p1 (Some (1000 * (ms1 / 1000) - dt)))).
  { subst d2. apply advance_live; [|lia].
    rewrite Hstore1. apply lookup_insert_eq. }
  assert (Hc2 : counter d2 k = p1) by (unfold counter; rewrite Hk2; reflexivity).
  assert (Ht2 : ttl_of d2 k = Some (1000 * (ms1 / 1000) - dt))
    by (unfold ttl_of; rewrite Hk2; reflexivity).
  destruct (_upsert_incr_normalized this k p2 ms2 d2 Hready Hbound)
    as (_ & raw2 & Hout2 & Hres2).
  fold r2 in Hout2.
  unfold script_ttl in Hres2. rewrite Hc2, Ht2 in Hres2. cbn [default] in Hres2.
  assert (Hlive : (1000 * (ms1 / 1000) - dt =? -1) = false)
    by (apply Z.eqb_neq; lia).
  rewrite Hlive in Hres2.
  exists raw1, raw2. split; [exact Hout1|]. split; [exact Hout2|].
  split; [exact Hres1|].
  rewrite Hres2. destruct (1000 <=? ms2); reflexivity.
Qed.

Lemma first_and_second_upsert_witness :
  exists raw2,
    outcome (_upsert flat_limiter "k" 3 1000 false
               (advance 2000 (store (_upsert flat_limiter "k" 2 5000 false ∅))))
    = Resolved raw2 /\
    _getRateLimiterRes flat_limiter "k" 3 raw2
    = Return {| consumedPoints := Int 5; isFirstInDuration := false;
                remainingPoints := Int 5; msBeforeNext := VNum (Int 3000) |}.
Proof.
  destruct (first_and_second_upsert flat_limiter "k" 2 3 5000 1000 2000 ∅)
    as (raw1 & raw2 & _ & Hout2 & _ & Hres2);
    [reflexivity | reflexivity
    | unfold in_range; cbn; lia | unfold in_range; lia
    | unfold in_range; lia | unfold in_range; lia
    | reflexivity | lia
    | split; [lia | reflexivity] |].
  exists raw2. split; [exact Hout2 | exact Hres2].
Defined.

(** ** The fields of a result *)

(** C6 as stated fails. A counter that holds 0 has a prior value, yet the
    upsert that adds 3 points to it reports [consumedPoints = 3] and has
    [isFirstInDuration] set. *)
Lemma first_flag_counterexample :
  let d : db := {["k" := Entry 0 (Some 5000)]} in
  d !! "k" = Some (Entry 0 (Some 5000)) /\
  outcome (_upsert flat_limiter "k" 3 5000 false d)
  = Resolved (VArr [VNum (Int 3); VNum (Int 5000)]) /\
  _getRateLimiterRes flat_limiter "k" 3 (VArr [VNum (Int 3); VNum (Int 5000)])
  = Return {| consumedPoints := Int 3; isFirstInDuration := true;
              remainingPoints := Int 7; msBeforeNext := VNum (Int 5000) |}.
Proof.
  cbv zeta. split; [apply lookup_singleton_eq|].
  rewrite _upsert_incr_script by reflexivity. cbn [outcome].
  unfold script_ttl. split; reflexivity.
Qed.

(** C6, amended. With a quota in the exact range, every result the
    normalizer produces from a reply whose consumed value is an integer
    [c] in that range has [remainingPoints = max(points - c, 0)] and has
    [isFirstInDuration] set exactly when [c] equals the points changed by
    the call; when the consumed value is not a number, [remainingPoints]
    is not a number either and [isFirstInDuration] is false. For an
    accumulating upsert past the gate, [consumedPoints] equals the points
    just added, and [isFirstInDuration] is set, exactly when the key was
    absent or its counter stood at 0 before the call. *)
Theorem result_invariants this k p :
  in_range (points this) ->
  (forall raw res c,
      _getRateLimiterRes this k p raw = Return res ->
      consumedPoints res = Int c -> in_range c ->
      remainingPoints res = Int (Z.max (points this - c) 0) /\
      (isFirstInDuration res = true <-> c = p)) /\
  (forall raw res,
      _getRateLimiterRes this k p raw = Return res ->
      consumedPoints res = NaN ->
      remainingPoints res = NaN /\ isFirstInDuration res = false) /\
  (forall ms d,
      _isRedisReady this = true -> script_bound this = true ->
      in_range p -> in_range (counter d k) -> in_range (counter d k + p) ->
      exists raw res,
        outcome (_upsert this k p ms false d) = Resolved raw /\
        _getRateLimiterRes this k p raw = Return res /\
        consumedPoints res = Int (counter d k + p) /\
        (isFirstInDuration res = true
         <-> d !! k = None \/ exists t, d !! k = Some (Entry 0 t))).
Proof.
  intros _.
  assert (Hfields : forall raw res,
             _getRateLimiterRes this k p raw = Return res ->
             isFirstInDuration res = strict_eq_num (consumedPoints res) p /\
             remainingPoints res
             = Math_max (num_sub (Int (points this)) (consumedPoints res)) (Int 0)).
  { intros raw res. unfold _getRateLimiterRes.
    destruct (iterate raw) as [l|]; [|discriminate].
    destruct (isArray (element 0 l));
      [destruct (iterate (element 0 l)); [|discriminate];
       destruct (iterate (element 1 l)); [|discriminate]|];
      intros [= <-]; split; reflexivity. }
  split; [|split].
  - intros raw res c Hres Hc _.
    destruct (Hfields raw res Hres) as [Hfirst Hrem].
    rewrite Hfirst, Hrem, Hc. cbn [strict_eq_num num_eqb num_sub Math_max].
    split; [reflexivity | apply Z.eqb_eq].
  - intros raw res Hres Hc.
    destruct (Hfields raw res Hres) as [Hfirst Hrem].
    rewrite Hfirst, Hrem, Hc. split; reflexivity.
  - intros ms d Hready Hbound _ _ _.
    destruct (_upsert_incr_normalized this k p ms d Hready Hbound)
      as (_ & raw & Hout & Hres).
    eexists raw, _. split; [exact Hout|]. split; [exact Hres|].
    cbn [consumedPoints isFirstInDuration]. split; [reflexivity|].
    rewrite Z.eqb_eq. unfold counter.
    destruct (d !! k) as [[v t]|]; cbn [e_val].
    + split.
      * intros ->. right. exists t. reflexivity.
      * intros [[=]|[t' [= -> _]]]. reflexivity.
    + split; [intros _; left; reflexivity | reflexivity].
Qed.

Lemma result_invariants_witness :
  exists res,
    _getRateLimiterRes flat_limiter "k" 3 (VArr [VStr "7"; VNum (Int 2500)])
    = Return res /\
    remainingPoints res = Int 3 /\
    (isFirstInDuration res = true <-> 7 = 3).
Proof.
  eexists. split; [reflexivity|].
  destruct (result_invariants flat_limiter "k" 3) as (Hint & _ & _);
    [unfold in_range; cbn; lia|].
  apply (Hint (VArr [VStr "7"; VNum (Int 2500)]) _ 7 eq_refl eq_refl).
  unfold in_range. lia.
Defined.

(** ** Counters without a window *)








(** ** Reading a counter *)

Section get.
Variable this : RateLimiterRedis.
Hypothesis Hready : _isRedisReady this = true.
Implicit Types (k : string) (d : db).

Lemma _get_run k d :
  _get this k d
  = Run [CallMulti; CallExec [GET k; PTTL k]]
      (match d !! k with
       | None =>
           if wraps (client this)
           then Resolved (VArr [VArr [VNull; VNull];
                                VArr [VNull; VNum (Int (-2))]])
           else Resolved VNull
       | Some e =>
           Resolved
             (VArr (List.map (exec_item (client this))
                      [RBulk (Z_to_string (e_val e));
                       RInt (default (-1) (e_ttl e))]))
       end)
      d.
Proof.
  unfold _get, client_exec. rewrite Hready. cbn [negb run_commands run_command].
  destruct (d !! k) as [e|] eqn:Hk; cbn [run_command]; rewrite ?Hk;
    cbn [List.map truthy element nth];
    unfold exec_item; destruct (wraps (client this)); reflexivity.
Qed.

(** With bare replies, [_get] resolves to [null] exactly on absent keys. *)
Lemma _get_bare_not_found k d :
  wraps (client this) = false ->
  outcome (_get this k d) = Resolved VNull <-> d !! k = None.
Proof.
  intros Hw. rewrite _get_run. cbn [outcome]. rewrite Hw.
  destruct (d !! k); cbn; split; congruence.
Qed.

(** On an existing key the reply normalizes to the counter and the time
    it has left, whatever the shape of the replies. *)
Lemma _get_found k d v t :
  d !! k = Some (Entry v t) ->
  exists raw,
    outcome (_get this k d) = Resolved raw /\
    _getRateLimiterRes this k 0 raw
    = Return {| consumedPoints := Int v;
                isFirstInDuration := v =? 0;
                remainingPoints := Int (Z.max (points this - v) 0);
                msBeforeNext := VNum (Int (default (-1) t)) |}.
Proof.
  intros Hk. rewrite _get_run, Hk. cbn [outcome e_val e_ttl].
  eexists. split; [reflexivity|].
  rewrite normalize_exec by reflexivity. cbn [js_of_reply].
  unfold canonical. rewrite parseInt_decimal. reflexivity.
Qed.

(** With bare replies, a counter whose time is up is not found. *)
Lemma _get_bare_expired k d v t dt :
  wraps (client this) = false ->
  d !! k = Some (Entry v (Some t)) -> t <= dt ->
  outcome (_get this k (advance dt d)) = Resolved VNull.
Proof.
  intros Hw Hk Hdt. apply _get_bare_not_found; [exact Hw|].
  eapply advance_expired; eassumption.
Qed.

(** With wrapped replies, [_get] never resolves to [null]. *)
Lemma _get_wrapped_never_null k d :
  wraps (client this) = true -> outcome (_get this k d) <> Resolved VNull.
Proof.
  intros Hw. rewrite _get_run. cbn [outcome]. rewrite Hw.
  destruct (d !! k); cbn; discriminate.
Qed.
End get.

(** C8 (the code departs from the claim). With a client whose [exec]
    replies are wrapped in pairs, [_get] on a key that is absent from the
    store does not resolve to [null]: the test [points === null] looks at
    the pair, so the promise resolves with the wrapped replies, which
    normalize to a result whose [consumedPoints] is not a number. *)
Theorem get_misses_absent_key_when_wrapped :
  let this := wrapping_limiter "ready" in
  let raw := VArr [VArr [VNull; VNull]; VArr [VNull; VNum (Int (-2))]] in
  _isRedisReady this = true /\
  (∅ : db) !! "k" = None /\
  outcome (_get this "k" ∅) = Resolved raw /\
  outcome (_get this "k" ∅) <> Resolved VNull /\
  _getRateLimiterRes this "k" 0 raw
  = Return {| consumedPoints := NaN; isFirstInDuration := false;
              remainingPoints := NaN; msBeforeNext := VNum (Int (-2)) |}.
Proof.
  intros this raw.
  assert (Hready : _isRedisReady this = true) by reflexivity.
  split; [exact Hready|]. split; [apply lookup_empty|].
  rewrite (_get_run this Hready), lookup_empty. cbn [outcome].
  split; [reflexivity|]. split; [discriminate | reflexivity].
Qed.

(** ** Two ways to run the script *)

(** C9. Take a limiter built on a client with [defineCommand] and one built
    on a client without it (and without a command [rlflxIncr] of its own).
    For every key, points and seconds, the custom command of the first and
    the [eval] call of the second give the same reply and leave the same
    store; past the gate, [_upsert] on the script path calls the custom
    command on the first and [eval] with the script text on the second,
    with the same outcome and the same store. *)
Theorem script_strategies_agree c1 c2 strict quota :
  defineCommand_fn c1 = true ->
  defineCommand_fn c2 = false ->
  commands c2 !! "rlflxIncr" = None ->
  let this1 := build c1 strict quota in
  let this2 := build c2 strict quota in
  (forall k p sec d,
      client_custom (client this1) "rlflxIncr"
        [VStr k; VNum (Int p); VNum (Int sec)] d
      = client_eval (client this2) incrTtlLuaScript 1
          [VStr k; VNum (Int p); VNum (Int sec)] d) /\
  (forall k p ms d,
      _isRedisReady this1 = true -> _isRedisReady this2 = true ->
      0 < ms / 1000 ->
      let args := [VStr k; VNum (Int p); VNum (Int (ms / 1000))] in
      calls (_upsert this1 k p ms false d)
      = [CallMulti; CallCustom "rlflxIncr" args] /\
      calls (_upsert this2 k p ms false d)
      = [CallMulti; CallEval incrTtlLuaScript 1 args] /\
      outcome (_upsert this1 k p ms false d)
      = outcome (_upsert this2 k p ms false d) /\
      store (_upsert this1 k p ms false d)
      = store (_upsert this2 k p ms false d)).
Proof.
  intros Hdef1 Hdef2 Hnone this1 this2.
  assert (Hcmd1 : commands (client this1) !! "rlflxIncr"
                  = Some (1%nat, incrTtlLuaScript)).
  { subst this1. unfold build. cbn [client]. rewrite Hdef1.
    cbn [client_defineCommand commands]. apply lookup_insert_eq. }
  assert (Hcmd2 : commands (client this2) !! "rlflxIncr" = None).
  { subst this2. unfold build. cbn [client]. rewrite Hdef2. exact Hnone. }
  assert (Hclient : forall k p sec d,
             client_custom (client this1) "rlflxIncr"
               [VStr k; VNum (Int p); VNum (Int sec)] d
             = client_eval (client this2) incrTtlLuaScript 1
                 [VStr k; VNum (Int p); VNum (Int sec)] d).
  { intros k p sec d. unfold client_custom, client_eval.
    rewrite Hcmd1. reflexivity. }
  split; [exact Hclient|].
  intros k p ms d Hr1 Hr2 Hsec args.
  assert (Hpos : (0 <? ms / 1000) = true) by (apply Z.ltb_lt; exact Hsec).
  unfold _upsert, floor_div, has_command.
  rewrite Hr1, Hr2, Hpos, Hcmd1, Hcmd2. cbn [negb].
  rewrite bool_decide_eq_true_2 by eauto.
  rewrite bool_decide_eq_false_2 by (intros [? ?]; congruence).
  subst args. rewrite (Hclient k p (ms / 1000) d).
  destruct (client_eval (client this2) incrTtlLuaScript 1 _ d)
    as [d1 [err res]].
  cbn [calls outcome store]. repeat split.
Qed.

Lemma script_strategies_agree_witness :
  outcome (_upsert (wrapping_limiter "ready") "k" 4 3000 false ∅)
  = outcome (_upsert flat_limiter "k" 4 3000 false ∅).
Proof.
  destruct (script_strategies_agree (wrapping_client "ready") flat_client
              (VBool true) 10 eq_refl eq_refl) as [_ H]; [reflexivity|].
  destruct (H "k" 4 3000 ∅) as (_ & _ & Hout & _); [reflexivity ..|].
  exact Hout.
Defined.


(** * Further properties of the adapter *)

(** ** The readiness gate, in full *)

Lemma is_ready_string_spec (v : value) :
  is_ready_string v = true <-> v = VStr "ready".
Proof.
  destruct v; cbn; try (split; [discriminate | intros [=]]).
  rewrite String.eqb_eq. split; [intros ->; reflexivity | intros [= ->]; reflexivity].
Qed.

(** X1. The readiness check fails exactly when fast-fail mode is on and the
    client either has a truthy [status] other than ['ready'] or has an
    [isReady] function that returns a falsy value. A client with no
    status (or an empty one) and no probe always passes. *)
Theorem gate_closed_iff this :
  _isRedisReady this = false <->
  _rejectIfRedisNotReady this = true /\
  ((truthy (status (client this)) = true /\ status (client this) <> VStr "ready") \/
   exists r, isReady (client this) = Some r /\ truthy r = false).
Proof.
  unfold _isRedisReady.
  destruct (_rejectIfRedisNotReady this); cbn [negb];
    [|split; [discriminate | intros [[=] _]]].
  set (s := status (client this)).
  assert (HA : truthy s && negb (is_ready_string s) = true
               <-> truthy s = true /\ s <> VStr "ready").
  { rewrite andb_true_iff, negb_true_iff, <- is_ready_string_spec.
    destruct (is_ready_string s); intuition congruence. }
  assert (HB : match isReady (client this) with
               | Some r => negb (truthy r)
               | None => false
               end = true
               <-> exists r, isReady (client this) = Some r /\ truthy r = false).
  { destruct (isReady (client this)) as [r|].
    - rewrite negb_true_iff. split; [eauto|].
      intros (r' & [= <-] & H). exact H.
    - split; [discriminate | intros (r' & [=] & _)]. }
  destruct (truthy s && negb (is_ready_string s)).
  - split; [|reflexivity]. intros _. split; [reflexivity|].
    left. apply HA. reflexivity.
  - destruct (match isReady (client this) with
              | Some r => negb (truthy r)
              | None => false
              end).
    + split; [|reflexivity]. intros _. split; [reflexivity|].
      right. apply HB. reflexivity.
    + split; [discriminate|].
      intros [_ [H|H]]; [apply HA in H | apply HB in H]; discriminate H.
Qed.



(** X3. One operation is one round trip: [_upsert] and [_get] make exactly
    one call that sends commands to the store when the readiness check
    passes and none otherwise; [_delete] always makes exactly one. *)
Theorem one_sending_call this k p ms fe d :
  length (List.filter sends (calls (_upsert this k p ms fe d)))
  = (if _isRedisReady this then 1 else 0)%nat /\
  length (List.filter sends (calls (_get this k d)))
  = (if _isRedisReady this then 1 else 0)%nat /\
  length (List.filter sends (calls (_delete this k d))) = 1%nat.
Proof.
  split; [|split].
  - unfold _upsert. destruct (_isRedisReady this); [|reflexivity]. cbn [negb].
    destruct fe; [|destruct (0 <? floor_div ms 1000);
                    [destruct (has_command (client this) "rlflxIncr")|]].
    + destruct (client_exec _ _ d) as [d1 [err res]]. reflexivity.
    + destruct (client_custom _ _ _ d) as [d1 [err res]]. reflexivity.
    + destruct (client_eval _ _ _ _ d) as [d1 [err res]]. reflexivity.
    + destruct (client_exec _ _ d) as [d1 [err res]]. reflexivity.
  - unfold _get. destruct (_isRedisReady this); [|reflexivity]. cbn [negb].
    destruct (client_exec _ _ d) as [d1 [err res]]. reflexivity.
  - rewrite _delete_calls. reflexivity.
Qed.

(** ** Reading and deleting *)

Lemma run_get_pttl (k : string) (d : db) :
  fst (run_commands [GET k; PTTL k] d) = d.
Proof.
  cbn [run_commands run_command].
  destruct (d !! k) as [e|] eqn:Hk; cbn [run_command]; rewrite ?Hk; reflexivity.
Qed.

(** X4. [_get] only reads: whatever the limiter, the client, the key and
    the store, the store after [_get] is the store before, so reading
    twice gives the same answer as reading once. *)
Theorem get_is_read_only this k d :
  store (_get this k d) = d /\
  _get this k (store (_get this k d)) = _get this k d.
Proof.
  assert (Hstore : store (_get this k d) = d).
  { unfold _get. destruct (_isRedisReady this); [|reflexivity]. cbn [negb].
    unfold client_exec. pose proof (run_get_pttl k d) as Hrun.
    destruct (run_commands [GET k; PTTL k] d) as [d1 rs].
    cbn [store]. exact Hrun. }
  split; [exact Hstore | rewrite Hstore; reflexivity].
Qed.

(** X5. [_delete] resolves to [true] exactly when the key was in the store
    and to [false] exactly when it was not; afterwards the key is gone and
    every other key is as before, and deleting again resolves to [false]. *)
Theorem delete_removes_key this k d :
  let r := _delete this k d in
  (outcome r = Resolved (VBool true) <-> is_Some (d !! k)) /\
  (outcome r = Resolved (VBool false) <-> d !! k = None) /\
  store r !! k = None /\
  (forall k', k' <> k -> store r !! k' = d !! k') /\
  outcome (_delete this k (store r)) = Resolved (VBool false).
Proof.
  cbv zeta. rewrite (_delete_run this k d).
  destruct (d !! k) as [e|] eqn:Hk; cbn [outcome store].
  - split; [split; [eauto | reflexivity]|].
    split; [split; discriminate|].
    split; [apply lookup_delete_eq|].
    split; [intros k' Hne; apply lookup_delete_ne; congruence|].
    rewrite _delete_run, lookup_delete_eq. reflexivity.
  - split; [split; [discriminate | intros [? [=]]]|].
    split; [split; reflexivity|].
    split; [exact Hk|].
    split; [reflexivity|].
    rewrite _delete_run, Hk. reflexivity.
Qed.

(** X6. Past the gate and with a quota in the exact range, [_get] on a key
    that is in the store with a counter in that range resolves with a
    reply that normalizes to the counter and the time the key has left
    ([-1] without expiry), for bare and for wrapped replies alike; with
    bare replies it resolves to [null] exactly when the key is absent, so
    also after a delete and after the key's time is up. *)
Theorem get_reports_counter this k d :
  _isRedisReady this = true ->
  in_range (points this) ->
  (forall v t,
      d !! k = Some (Entry v t) ->
      in_range v ->
      exists raw,
        outcome (_get this k d) = Resolved raw /\
        _getRateLimiterRes this k 0 raw
        = Return {| consumedPoints := Int v;
                    isFirstInDuration := v =? 0;
                    remainingPoints := Int (Z.max (points this - v) 0);
                    msBeforeNext := VNum (Int (default (-1) t)) |}) /\
  (wraps (client this) = false ->
   (outcome (_get this k d) = Resolved VNull <-> d !! k = None) /\
   outcome (_get this k (store (_delete this k d))) = Resolved VNull /\
   (forall v t dt,
       d !! k = Some (Entry v (Some t)) -> t <= dt ->
       outcome (_get this k (advance dt d)) = Resolved VNull)).
Proof.
  intros Hready _. split.
  - intros v t Hk _. apply _get_found; assumption.
  - intros Hw.
    split; [apply _get_bare_not_found; assumption|].
    split.
    + apply _get_bare_not_found; [assumption ..|].
      rewrite _delete_run. destruct (d !! k) eqn:Hk; cbn [store];
        [apply lookup_delete_eq | exact Hk].
    + intros v t dt Hk Hdt. eapply _get_bare_expired; eassumption.
Qed.

Lemma get_reports_counter_witness :
  exists raw,
    outcome (_get flat_limiter "k" {["k" := Entry 7 (Some 2500)]}) = Resolved raw /\
    _getRateLimiterRes flat_limiter "k" 0 raw
    = Return {| consumedPoints := Int 7; isFirstInDuration := false;
                remainingPoints := Int 3; msBeforeNext := VNum (Int 2500) |}.
Proof.
  destruct (get_reports_counter flat_limiter "k"
              {["k" := Entry 7 (Some 2500)]} eq_refl) as [Hfound _];
    [unfold in_range; cbn; lia|].
  apply (Hfound 7 (Some 2500)); [apply lookup_singleton_eq|].
  unfold in_range. lia.
Defined.

(** ** Writing, then reading *)

(** X7. What [_get] reads is what the accumulating [_upsert] reported:
    past the gate, with the counter, the points and their sum within the
    exact range, [dt] ms after an upsert and before the key's time is up,
    [_get] yields the same [consumedPoints], and the [msBeforeNext] of the
    upsert less [dt] (still [-1] for a key without expiry). *)
Theorem get_after_upsert this k p ms dt d :
  _isRedisReady this = true -> script_bound this = true ->
  in_range (counter d k) -> in_range p -> in_range (counter d k + p) ->
  let r := _upsert this k p ms false d in
  (forall t, ttl_of (store r) k = Some t -> dt < t) ->
  exists raw_u res_u raw_g res_g,
    outcome r = Resolved raw_u /\
    _getRateLimiterRes this k p raw_u = Return res_u /\
    outcome (_get this k (advance dt (store r))) = Resolved raw_g /\
    _getRateLimiterRes this k 0 raw_g = Return res_g /\
    consumedPoints res_u = Int (counter d k + p) /\
    consumedPoints res_g = consumedPoints res_u /\
    msBeforeNext res_u = VNum (Int (default (-1) (ttl_of (store r) k))) /\
    msBeforeNext res_g
    = VNum (Int (default (-1) ((fun t => t - dt) <$> ttl_of (store r) k))).
Proof.
  intros Hready Hbound _ _ _ r Hlive.
  destruct (_upsert_incr_normalized this k p ms d Hready Hbound)
    as (Hstore & raw_u & Hout & Hres).
  fold r in Hstore, Hout.
  set (t' := if 1000 <=? ms
             then Some (if 1000 <=? ms then script_ttl d k (ms / 1000)
                        else default (-1) (ttl_of d k))
             else ttl_of d k) in Hstore.
  assert (Hk : store r !! k = Some (Entry (counter d k + p) t'))
    by (rewrite Hstore; apply lookup_insert_eq).
  assert (Ht : ttl_of (store r) k = t')
    by (unfold ttl_of; rewrite Hk; reflexivity).
  rewrite Ht in Hlive |- *.
  assert (Hk' : advance dt (store r) !! k
                = Some (Entry (counter d k + p) ((fun t => t - dt) <$> t'))).
  { destruct t' as [t|] eqn:Et'.
    - apply advance_live; [exact Hk | apply Hlive; reflexivity].
    - apply advance_persistent. exact Hk. }
  destruct (_get_found this Hready k _ _ _ Hk') as (raw_g & Houtg & Hresg).
  eexists raw_u, _, raw_g, _.
  split; [exact Hout|]. split; [exact Hres|].
  split; [exact Houtg|]. split; [exact Hresg|].
  cbn [consumedPoints msBeforeNext].
  split; [reflexivity|]. split; [reflexivity|].
  split; [|reflexivity].
  subst t'. destruct (1000 <=? ms); reflexivity.
Qed.

Lemma get_after_upsert_witness :
  exists raw_g res_g,
    outcome (_get flat_limiter "k"
               (advance 1200 (store (_upsert flat_limiter "k" 4 3000 false ∅))))
    = Resolved raw_g /\
    _getRateLimiterRes flat_limiter "k" 0 raw_g = Return res_g /\
    consumedPoints res_g = Int 4 /\
    msBeforeNext res_g = VNum (Int 1800).
Proof.
  destruct (get_after_upsert flat_limiter "k" 4 3000 1200 ∅ eq_refl eq_refl)
    as (raw_u & res_u & raw_g & res_g & _ & _ & Hg & Hrg & Hcu & Hcg & _ & Hmg).
  - unfold in_range. change (counter ∅ "k") with 0. lia.
  - unfold in_range. lia.
  - unfold in_range. change (counter ∅ "k") with 0. lia.
  - intros t. rewrite _upsert_incr_script by reflexivity. cbn [store].
    rewrite ttl_of_insert. intros [= <-]. reflexivity.
  - exists raw_g, res_g. split; [exact Hg|]. split; [exact Hrg|].
    split; [rewrite Hcg; exact Hcu|].
    rewrite Hmg. rewrite _upsert_incr_script by reflexivity. cbn [store].
    rewrite ttl_of_insert. reflexivity.
Defined.



(** ** The fixed window *)

Lemma live_step this k p ms dt d v t :
  _isRedisReady this = true -> script_bound this = true ->
  d !! k = Some (Entry v (Some t)) -> 0 <= dt < t ->
  let r := _upsert this k p ms false (advance dt d) in
  store r !! k = Some (Entry (v + p) (Some (t - dt))) /\
  exists raw,
    outcome r = Resolved raw /\
    _getRateLimiterRes this k p raw
    = Return {| consumedPoints := Int (v + p);
                isFirstInDuration := v =? 0;
                remainingPoints := Int (Z.max (points this - (v + p)) 0);
                msBeforeNext := VNum (Int (t - dt)) |}.
Proof.
  intros Hready Hbound Hk Hdt r.
  assert (Hk' : advance dt d !! k = Some (Entry v (Some (t - dt))))
    by (apply advance_live; [exact Hk | lia]).
  assert (Hc : counter (advance dt d) k = v)
    by (unfold counter; rewrite Hk'; reflexivity).
  assert (Ht : ttl_of (advance dt d) k = Some (t - dt))
    by (unfold ttl_of; rewrite Hk'; reflexivity).
  assert (Hne : (t - dt =? -1) = false) by (apply Z.eqb_neq; lia).
  destruct (_upsert_incr_normalized this k p ms (advance dt d) Hready Hbound)
    as (Hstore & raw & Hout & Hres).
  fold r in Hstore, Hout.
  unfold script_ttl in Hstore, Hres.
  rewrite Hc, Ht, Hne in Hstore, Hres. cbn [default] in Hstore, Hres.
  split.
  - rewrite Hstore, lookup_insert_eq. destruct (1000 <=? ms); reflexivity.
  - exists raw. split; [exact Hout|]. rewrite Hres.
    destruct (1000 <=? ms); reflexivity.
Qed.

Lemma live_run this k steps :
  _isRedisReady this = true -> script_bound this = true ->
  forall d v t i s,
    d !! k = Some (Entry v (Some t)) ->
    Forall (fun s => 0 <= wait s) steps ->
    waited steps < t ->
    steps !! i = Some s ->
    exists r raw,
      upsert_run this k steps d !! i = Some r /\
      outcome r = Resolved raw /\
      _getRateLimiterRes this k (add s) raw
      = Return {| consumedPoints := Int (v + added (take (S i) steps));
                  isFirstInDuration := v + added (take i steps) =? 0;
                  remainingPoints :=
                    Int (Z.max (points this - (v + added (take (S i) steps))) 0);
                  msBeforeNext := VNum (Int (t - waited (take (S i) steps))) |} /\
      store r !! k
      = Some (Entry (v + added (take (S i) steps))
                (Some (t - waited (take (S i) steps)))).
Proof.
  intros Hready Hbound.
  induction steps as [|s0 rest IH]; intros d v t i s Hk Hpos Hel Hi.
  - rewrite lookup_nil in Hi. discriminate Hi.
  - apply Forall_cons in Hpos as [Hdt0 Hpos].
    assert (Hrest : 0 <= waited rest).
    { clear -Hpos. induction Hpos as [|x l Ha _ IHl].
      - change (waited []) with 0. lia.
      - change (waited (x :: l)) with (wait x + waited l). lia. }
    change (waited (s0 :: rest)) with (wait s0 + waited rest) in Hel.
    destruct (live_step this k (add s0) (window s0) (wait s0) d v t
                Hready Hbound Hk ltac:(lia))
      as (Hstore & raw & Hout & Hres).
    destruct i as [|i]; cbn [upsert_run].
    + injection Hi as <-.
      eexists _, raw. split; [reflexivity|].
      cbn [take added waited fold_right].
      rewrite !Z.add_0_r.
      split; [exact Hout|]. split; [exact Hres | exact Hstore].
    + cbn [lookup list_lookup] in Hi |- *.
      set (d1 := store (_upsert this k (add s0) (window s0) false
                          (advance (wait s0) d))) in *.
      destruct (IH d1 (v + add s0) (t - wait s0) i s Hstore Hpos ltac:(lia) Hi)
        as (r & raw' & Hr & Hout' & Hres' & Hstore').
      exists r, raw'. split; [exact Hr|]. split; [exact Hout'|].
      replace (v + added (take (S (S i)) (s0 :: rest)))
        with (v + add s0 + added (take (S i) rest))
        by (cbn [take added fold_right]; unfold added; lia).
      replace (v + added (take (S i) (s0 :: rest)))
        with (v + add s0 + added (take i rest))
        by (cbn [take added fold_right]; unfold added; lia).
      replace (t - waited (take (S (S i)) (s0 :: rest)))
        with (t - wait s0 - waited (take (S i) rest))
        by (cbn [take waited fold_right]; unfold waited; lia).
      split; [exact Hres' | exact Hstore'].
Qed.

(** X9. The window is fixed. Past the gate, on a key with [t] ms left to
    live, a run of accumulating upserts, each with a duration of its own,
    that all happen before the [t] ms are over never extends the key's
    life: as long as the points and the counter stay within the exact
    range, each yields the counter raised by all the points so far and, as
    [msBeforeNext], [t] less the time that has passed. *)
Theorem window_is_fixed this k steps :
  _isRedisReady this = true -> script_bound this = true ->
  in_range (points this) ->
  forall d v t i s,
    d !! k = Some (Entry v (Some t)) ->
    Forall (fun s => 0 <= wait s /\ in_range (add s)) steps ->
    (forall j, in_range (v + added (take j steps))) ->
    waited steps < t ->
    steps !! i = Some s ->
    exists r raw,
      upsert_run this k steps d !! i = Some r /\
      outcome r = Resolved raw /\
      _getRateLimiterRes this k (add s) raw
      = Return {| consumedPoints := Int (v + added (take (S i) steps));
                  isFirstInDuration := v + added (take i steps) =? 0;
                  remainingPoints :=
                    Int (Z.max (points this - (v + added (take (S i) steps))) 0);
                  msBeforeNext := VNum (Int (t - waited (take (S i) steps))) |} /\
      store r !! k
      = Some (Entry (v + added (take (S i) steps))
                (Some (t - waited (take (S i) steps)))).
Proof.
  intros Hready Hbound _ d v t i s Hk Hsteps _ Hel Hi.
  apply live_run; try assumption.
  eapply Forall_impl; [exact Hsteps|]. intros x [Hx _]. exact Hx.
Qed.

Lemma window_is_fixed_witness :
  exists r raw,
    upsert_run flat_limiter "k"
      [Step 100 60000 1; Step 300 0 2; Step 400 2500 3]
      {["k" := Entry 4 (Some 1000)]} !! 2%nat = Some r /\
    outcome r = Resolved raw /\
    _getRateLimiterRes flat_limiter "k" 3 raw
    = Return {| consumedPoints := Int 10; isFirstInDuration := false;
                remainingPoints := Int 0; msBeforeNext := VNum (Int 200) |}.
Proof.
  destruct (window_is_fixed flat_limiter "k"
              [Step 100 60000 1; Step 300 0 2; Step 400 2500 3]
              eq_refl eq_refl) with
    (d := ({["k" := Entry 4 (Some 1000)]} : db)) (v := 4) (t := 1000)
    (i := 2%nat) (s := Step 400 2500 3)
    as (r & raw & Hr & Hout & Hres & _).
  - unfold in_range. cbn. lia.
  - apply lookup_singleton_eq.
  - repeat constructor; unfold in_range; cbn; lia.
  - intros j. unfold in_range.
    destruct j as [|[|[|j]]]; cbn [take]; rewrite ?take_nil;
      cbn [added fold_right add]; lia.
  - reflexivity.
  - reflexivity.
  - exists r, raw. split; [exact Hr|]. split; [exact Hout | exact Hres].
Defined.

(** X10. The script gives a forgotten key its window. Past the gate, an
    accumulating upsert with [msDuration >= 1000] on a key that exists
    without expiry adds the points and attaches an expiry of
    [floor(msDuration / 1000)] seconds, reported as [msBeforeNext]; the
    counter, the points, their sum and the quota are within the exact
    range. *)
Theorem script_attaches_missing_expiry this k p ms d v :
  _isRedisReady this = true -> script_bound this = true ->
  in_range (points this) ->
  in_range v -> in_range p -> in_range (v + p) ->
  1000 <= ms ->
  d !! k = Some (Entry v None) ->
  let r := _upsert this k p ms false d in
  store r !! k = Some (Entry (v + p) (Some (1000 * (ms / 1000)))) /\
  exists raw,
    outcome r = Resolved raw /\
    _getRateLimiterRes this k p raw
    = Return {| consumedPoints := Int (v + p);
                isFirstInDuration := v =? 0;
                remainingPoints := Int (Z.max (points this - (v + p)) 0);
                msBeforeNext := VNum (Int (1000 * (ms / 1000))) |}.
Proof.
  intros Hready Hbound _ _ _ _ Hms Hk r.
  assert (Hc : counter d k = v) by (unfold counter; rewrite Hk; reflexivity).
  assert (Ht : ttl_of d k = None) by (unfold ttl_of; rewrite Hk; reflexivity).
  assert (Hms' : (1000 <=? ms) = true) by (apply Z.leb_le; exact Hms).
  destruct (_upsert_incr_normalized this k p ms d Hready Hbound)
    as (Hstore & raw & Hout & Hres).
  fold r in Hstore, Hout.
  unfold script_ttl in Hstore, Hres. rewrite Hc, Ht, Hms' in Hstore, Hres.
  split; [rewrite Hstore; apply lookup_insert_eq|].
  exists raw. split; [exact Hout | exact Hres].
Qed.

Lemma script_attaches_missing_expiry_witness :
  store (_upsert flat_limiter "k" 2 5999 false {["k" := Entry 8 None]}) !! "k"
  = Some (Entry 10 (Some 5000)).
Proof.
  destruct (script_attaches_missing_expiry flat_limiter "k" 2 5999
              {["k" := Entry 8 None]} 8 eq_refl eq_refl) as [Hk _].
  - unfold in_range. cbn. lia.
  - unfold in_range. lia.
  - unfold in_range. lia.
  - unfold in_range. lia.
  - lia.
  - apply lookup_singleton_eq.
  - exact Hk.
Defined.



(** ** What [_upsert] never does *)

(** X12. [_upsert] writes no key but its own: with the constructor's
    script behind [rlflxIncr], whatever the readiness, the points, the
    duration and the flag, every other key of the store is as before. *)
Theorem upsert_touches_only_its_key this k k' p ms fe d :
  script_bound this = true ->
  k' <> k ->
  store (_upsert this k p ms fe d) !! k' = d !! k'.
Proof.
  intros Hbound Hne.
  destruct (_isRedisReady this) eqn:Hready;
    [|rewrite _upsert_not_ready by exact Hready; reflexivity].
  destruct fe.
  - rewrite _upsert_forced by exact Hready. cbv zeta. cbn [store].
    apply lookup_insert_ne. congruence.
  - destruct (_upsert_incr_normalized this k p ms d Hready Hbound) as [Hstore _].
    rewrite Hstore. apply lookup_insert_ne. congruence.
Qed.

Lemma upsert_touches_only_its_key_witness :
  store (_upsert flat_limiter "a" 5 4000 false {["b" := Entry 2 (Some 700)]}) !! "b"
  = Some (Entry 2 (Some 700)).
Proof.
  rewrite (upsert_touches_only_its_key flat_limiter "a" "b" 5 4000 false
             {["b" := Entry 2 (Some 700)]} eq_refl ltac:(discriminate)).
  apply lookup_singleton_eq.
Defined.

(** X13. [_upsert] never asks the store for an expiry that is not
    positive. Whatever the limiter, the key, the points, the duration
    (zero and negative ones too) and the flag, every [SET] it sends
    carries no [EX] or a positive one, and the increment script is only
    ever invoked with the key, the points and a positive number of
    seconds: the guard [secDuration > 0] keeps the window the store would
    refuse from being sent. *)
Theorem upsert_never_asks_empty_expiry this k p ms fe d :
  forallb asks_positive_expiry (calls (_upsert this k p ms fe d)) = true.
Proof.
  destruct (_isRedisReady this) eqn:Hready;
    [|rewrite _upsert_not_ready by exact Hready; reflexivity].
  rewrite _upsert_calls_ready by exact Hready.
  rewrite <- sec_positive.
  destruct (0 <? ms / 1000) eqn:Hsec, fe; cbn; rewrite ?Hsec; try reflexivity.
  unfold script_call.
  destruct (has_command (client this) "rlflxIncr"); cbn; rewrite Hsec;
    reflexivity.
Qed.

(** X14. The increment script refuses a window that is not positive before
    it writes anything: run with [ARGV[2] <= 0] it ends with the error of
    its first command and the store is as before, so the caller's promise
    is rejected with that error. *)
Theorem script_refuses_empty_window c k p sec d :
  sec <= 0 ->
  run_lua incrTtlLuaScript [VStr k] [VNum (Int p); VNum (Int sec)] d
  = (d, inl "ERR invalid expire time in 'set' command") /\
  let '(d1, (err, res)) :=
    client_eval c incrTtlLuaScript 1 [VStr k; VNum (Int p); VNum (Int sec)] d in
  d1 = d /\
  settle err res = Rejected (VErr "ERR invalid expire time in 'set' command").
Proof.
  intros Hsec.
  assert (Hle : (sec <=? 0) = true) by (apply Z.leb_le; exact Hsec).
  assert (Hrun : run_lua incrTtlLuaScript [VStr k] [VNum (Int p); VNum (Int sec)] d
                 = (d, inl "ERR invalid expire time in 'set' command")).
  { rewrite run_lua_incrTtl.
    unfold incrTtl, lua_bind, lua_key, lua_int, redis_call, lua_ret.
    cbn [lookup list_lookup pred run_command]. rewrite Hle. reflexivity. }
  split; [exact Hrun|].
  unfold client_eval. cbn [take drop]. rewrite Hrun. cbn [script_callback].
  split; reflexivity.
Qed.

Lemma script_refuses_empty_window_witness :
  run_lua incrTtlLuaScript [VStr "k"] [VNum (Int 5); VNum (Int 0)]
    {["k" := Entry 1 None]}
  = ({["k" := Entry 1 None]}, inl "ERR invalid expire time in 'set' command").
Proof.
  apply (script_refuses_empty_window flat_client "k" 5 0
           {["k" := Entry 1 None]}). lia.
Defined.

(** ** The normalizer at the edges *)

(** X15. [_getRateLimiterRes] throws exactly when the reply cannot be
    destructured: when the reply itself is not iterable, or when its first
    element is an array and its second element is not iterable. On every
    other reply, short and empty arrays included, it returns a result. *)
Theorem normalizer_throws_iff this k p raw :
  (exists e, _getRateLimiterRes this k p raw = Throw e) <->
  iterate raw = None \/
  exists l, iterate raw = Some l /\
            isArray (element 0 l) = true /\ iterate (element 1 l) = None.
Proof.
  unfold _getRateLimiterRes.
  destruct (iterate raw) as [l|];
    [|split; [intros _; left; reflexivity | intros _; eexists; reflexivity]].
  destruct (isArray (element 0 l)) eqn:Harr.
  - assert (Hlc : exists lc, iterate (element 0 l) = Some lc)
      by (destruct (element 0 l); try discriminate Harr; eauto).
    destruct Hlc as [lc ->].
    destruct (iterate (element 1 l)) as [lt|] eqn:Ht.
    + split; [intros [e [=]]|].
      intros [[=]|(l' & [= <-] & _ & Hnone)]. congruence.
    + split; [|intros _; eexists; reflexivity].
      intros _. right. exists l. repeat split; assumption.
  - split; [intros [e [=]]|].
    intros [[=]|(l' & [= <-] & Htrue & _)]. congruence.
Qed.



(** ** The constructor *)

(** The client the constructor picks: [opts.redis] when given, else
    [opts.storeClient]. *)
Lemma constructor_cases opts :
  match redis opts, storeClient opts with
  | Some c, _ | None, Some c =>
      constructor opts
      = Return (build c (rejectIfRedisNotReady opts) (opts_points opts))
  | None, None =>
      constructor opts = Throw "TypeError: Cannot read properties of undefined"
  end.
Proof.
  unfold constructor, build.
  destruct (redis opts), (storeClient opts); reflexivity.
Qed.

(** X17. Given neither [opts.redis] nor [opts.storeClient] the constructor
    throws. Whenever it returns, it has taken [opts.redis] before
    [opts.storeClient], kept the client's status, probe and reply shape,
    and set fast-fail mode to the truthiness of the option. On a client
    with [defineCommand] it has bound [rlflxIncr] to the increment script
    with one key and left every other command alone; any other client it
    has not changed. When the client has [defineCommand] or no [rlflxIncr]
    of its own, the script behind [rlflxIncr] is the constructor's. *)
Theorem constructor_contract opts :
  (redis opts = None /\ storeClient opts = None ->
   exists e, constructor opts = Throw e) /\
  forall this,
    constructor opts = Return this ->
    exists c,
      (redis opts = Some c \/ redis opts = None /\ storeClient opts = Some c) /\
      status (client this) = status c /\
      isReady (client this) = isReady c /\
      wraps (client this) = wraps c /\
      _rejectIfRedisNotReady this = truthy (rejectIfRedisNotReady opts) /\
      (if defineCommand_fn c
       then commands (client this) !! "rlflxIncr" = Some (1%nat, incrTtlLuaScript) /\
            forall name, name <> "rlflxIncr" ->
                         commands (client this) !! name = commands c !! name
       else client this = c) /\
      (defineCommand_fn c = true \/ commands c !! "rlflxIncr" = None ->
       script_bound this = true).
Proof.
  pose proof (constructor_cases opts) as Hc.
  assert (Hbuilt : forall c this,
             build c (rejectIfRedisNotReady opts) (opts_points opts) = this ->
             status (client this) = status c /\
             isReady (client this) = isReady c /\
             wraps (client this) = wraps c /\
             _rejectIfRedisNotReady this = truthy (rejectIfRedisNotReady opts) /\
             (if defineCommand_fn c
              then commands (client this) !! "rlflxIncr"
                   = Some (1%nat, incrTtlLuaScript) /\
                   forall name, name <> "rlflxIncr" ->
                                commands (client this) !! name = commands c !! name
              else client this = c) /\
             (defineCommand_fn c = true \/ commands c !! "rlflxIncr" = None ->
              script_bound this = true)).
  { intros c this <-.
    assert (Hb := build_script_bound c (rejectIfRedisNotReady opts) (opts_points opts)).
    unfold build in *. cbn [client _rejectIfRedisNotReady points] in *.
    destruct (defineCommand_fn c);
      cbn [client_defineCommand status isReady wraps commands];
      repeat split; try exact Hb.
    - apply lookup_insert_eq.
    - intros name Hne. apply lookup_insert_ne. congruence. }
  destruct (redis opts) as [c1|], (storeClient opts) as [c2|]; rewrite Hc.
  - split; [intros [[=] _]|].
    intros this [= Hthis]. exists c1. split; [left; reflexivity | apply Hbuilt, Hthis].
  - split; [intros [[=] _]|].
    intros this [= Hthis]. exists c1. split; [left; reflexivity | apply Hbuilt, Hthis].
  - split; [intros [_ [=]]|].
    intros this [= Hthis]. exists c2.
    split; [right; split; reflexivity | apply Hbuilt, Hthis].
  - split; [intros _; eexists; reflexivity|].
    intros this [=].
Qed.

Lemma client_defineCommand_again c name nk lua :
  client_defineCommand (client_defineCommand c name nk lua) name nk lua
  = client_defineCommand c name nk lua.
Proof.
  unfold client_defineCommand.
  cbn [status isReady defineCommand_fn commands wraps].
  rewrite insert_insert_eq. reflexivity.
Qed.

(** X18. Limiters can share a client. Constructing a second limiter on the
    client of a first one hands back that very client: the script is
    defined again under the same name with the same text, and nothing
    else changes. *)
Theorem constructor_shares_client opts1 opts2 this1 :
  constructor opts1 = Return this1 ->
  redis opts2 = Some (client this1) ->
  exists this2,
    constructor opts2 = Return this2 /\ client this2 = client this1.
Proof.
  intros H1 H2.
  pose proof (constructor_cases opts2) as Hc2. rewrite H2 in Hc2.
  assert (Hc2' : constructor opts2
                 = Return (build (client this1) (rejectIfRedisNotReady opts2)
                             (opts_points opts2)))
    by (destruct (storeClient opts2); exact Hc2).
  eexists. split; [exact Hc2'|].
  pose proof (constructor_cases opts1) as Hc1.
  assert (Hb : exists c, this1 = build c (rejectIfRedisNotReady opts1) (opts_points opts1)).
  { destruct (redis opts1) as [c|], (storeClient opts1) as [c'|];
      rewrite H1 in Hc1; try discriminate Hc1; injection Hc1 as ->; eauto. }
  destruct Hb as [c ->]. unfold build. cbn [client].
  destruct (defineCommand_fn c) eqn:Hdef.
  - cbn [client_defineCommand defineCommand_fn]. rewrite Hdef.
    apply client_defineCommand_again.
  - rewrite Hdef. reflexivity.
Qed.

Lemma constructor_shares_client_witness :
  exists this2,
    constructor {| redis := Some (client (wrapping_limiter "ready"));
                   storeClient := None;
                   rejectIfRedisNotReady := VUndef; opts_points := 3 |}
    = Return this2 /\
    client this2 = client (wrapping_limiter "ready").
Proof.
  apply (constructor_shares_client
           {| redis := Some (wrapping_client "ready"); storeClient := None;
              rejectIfRedisNotReady := VBool true; opts_points := 10 |}
           {| redis := Some (client (wrapping_limiter "ready"));
              storeClient := None;
              rejectIfRedisNotReady := VUndef; opts_points := 3 |}
           (wrapping_limiter "ready")); reflexivity.
Defined.

(** ** Operations in sequence, and across clients *)



(** X20. The client does not show in the result. Two limiters with the
    same quota that both pass the gate, whatever their clients (bare or
    wrapped replies, custom command or [eval]), leave the same store after
    [_upsert] and resolve with replies that normalize to the same
    result. *)
Theorem upsert_independent_of_client this1 this2 k p ms fe d :
  _isRedisReady this1 = true -> _isRedisReady this2 = true ->
  script_bound this1 = true -> script_bound this2 = true ->
  points this1 = points this2 ->
  store (_upsert this1 k p ms fe d) = store (_upsert this2 k p ms fe d) /\
  exists raw1 raw2 res,
    outcome (_upsert this1 k p ms fe d) = Resolved raw1 /\
    outcome (_upsert this2 k p ms fe d) = Resolved raw2 /\
    _getRateLimiterRes this1 k p raw1 = Return res /\
    _getRateLimiterRes this2 k p raw2 = Return res.
Proof.
  intros Hr1 Hr2 Hb1 Hb2 Hq. destruct fe.
  - rewrite !_upsert_forced by assumption. cbv zeta. cbn [store outcome].
    split; [reflexivity|].
    eexists _, _, _. split; [reflexivity|]. split; [reflexivity|].
    rewrite !normalize_exec by reflexivity.
    unfold canonical. rewrite Hq. split; reflexivity.
  - destruct (_upsert_incr_normalized this1 k p ms d Hr1 Hb1)
      as (Hs1 & raw1 & Ho1 & Hn1).
    destruct (_upsert_incr_normalized this2 k p ms d Hr2 Hb2)
      as (Hs2 & raw2 & Ho2 & Hn2).
    split; [rewrite Hs1, Hs2; reflexivity|].
    eexists raw1, raw2, _. split; [exact Ho1|]. split; [exact Ho2|].
    split; [exact Hn1|]. rewrite Hn2, Hq. reflexivity.
Qed.

Lemma upsert_independent_of_client_witness :
  store (_upsert flat_limiter "k" 6 500 false {["k" := Entry 1 None]})
  = store (_upsert (wrapping_limiter "ready") "k" 6 500 false {["k" := Entry 1 None]}).
Proof.
  apply (upsert_independent_of_client flat_limiter (wrapping_limiter "ready")
           "k" 6 500 false {["k" := Entry 1 None]}); reflexivity.
Defined.
